(** * ssh-mitm: the command line front end ([ssh_proxy_server/cli.py])

    A shallow embedding of [init_server_parser], [run_server] and [main],
    together with the part of [argparse] they rely on, and the properties
    of the configuration hand-over to [SSHProxyServer].

    Python objects are modelled dynamically, as the code has them: an
    [argparse.Namespace] is a finite map from attribute names to values,
    class objects are values, and the interpreter-wide state that
    [cli.py] assigns to (attributes of the [paramiko.Transport] class,
    attributes of the selected authenticator class, the logging
    configuration) is an explicit [Process] record threaded through a
    state-and-exception monad. *)

From Stdlib Require Import ZArith Ascii String.
From stdpp Require Import gmap strings list fin_maps.

Local Open Scope string_scope.

(** ** Python values *)

(** A class object is identified by its name. *)
Abbreviation PyClass := string (only parsing).

Inductive Value :=
| VNone
| VBool (b : bool)
| VInt (z : Z)
| VStr (s : string)
| VClass (c : PyClass).

Global Instance Value_eq_dec : EqDecision Value.
Proof. solve_decision. Defined.

(** Truth value of an object, as tested by [if x:]. *)
Definition truthy (v : Value) : bool :=
  match v with
  | VNone => false
  | VBool b => b
  | VInt z => negb (Z.eqb z 0)
  | VStr s => negb (String.eqb s "")
  | VClass _ => true
  end.

(** [argparse.Namespace]: a bag of attributes. *)
Abbreviation Namespace := (gmap string Value) (only parsing).

(** ** The command line

    [argparse] first segments [sys.argv[1:]] into option occurrences and
    plain words.  That segmentation is the library's and is taken as
    given: the command line is a list of [Arg]s, where [Opt f None] is the
    token [f] recognised as the option string [f], [Opt f (Some v)] is the
    token [f=v], and [Word w] is any token that is not an option (the
    empty string included). *)
Inductive Arg :=
| Opt (flag : string) (explicit : option string)
| Word (w : string).

Global Instance Arg_eq_dec : EqDecision Arg.
Proof. solve_decision. Defined.

(** ** Argument declarations *)

Inductive ArgType := TStr | TInt.

Inductive Action :=
| Store (type : ArgType) (choices : option (list string))
| StoreTrue
| StoreModule (baseclass : PyClass)
| Help
| Version.

(** One [add_argument] / [add_module] call.  [default = None] is
    [argparse.SUPPRESS]: the attribute is not created. *)
Record Argument := {
  option_strings : list string;
  dest : string;
  default : option Value;
  action : Action
}.

(** How [parse_args] ends when it does not return: [parser.error] prints
    the usage and raises [SystemExit(2)]; the help and version actions
    print and raise [SystemExit(0)]. *)
Inductive ExitKind := usage_error | info_exit.

Inductive Outcome (A : Type) :=
| Parsed (a : A)
| Exit (e : ExitKind).
Arguments Parsed {A} a.
Arguments Exit {A} e.

(** What a parser has accumulated: the namespace, the arguments it did
    not recognise, and the names handed to the module loader so far. *)
Record PState := {
  ns : Namespace;
  extras : list Arg;
  loaded : list (string * PyClass)
}.

Definition find_action (spec : list Argument) (f : string) : option Argument :=
  List.find (fun a => bool_decide (f ∈ option_strings a)) spec.

(** Defaults installed before parsing: every declared destination that
    the namespace does not have yet gets its default. *)
Fixpoint install_defaults (spec : list Argument) (n : Namespace) : Namespace :=
  match spec with
  | [] => n
  | a :: spec' =>
      let n' := match default a, n !! dest a with
                | Some v, None => <[dest a := v]> n
                | _, _ => n
                end in
      install_defaults spec' n'
  end.

Inductive Step :=
| Unknown
| Took (st : PState) (used_next : bool)
| Stop (e : ExitKind).

Section Argparse.

(** Python's [int(s)]. *)
Variable int_of_str : string -> option Z.
(** The class loader behind [ModuleParser.add_module]: the class named
    on the command line, if it can be found. *)
Variable load_module : string -> option PyClass.
Variable issubclass : PyClass -> PyClass -> bool.

(** The argument of a one-argument option: the explicit one of [f=v],
    else the next token when it is a plain word. *)
Definition option_argument (explicit : option string) (next : option Arg)
  : option (string * bool) :=
  match explicit, next with
  | Some v, _ => Some (v, false)
  | None, Some (Word w) => Some (w, true)
  | None, _ => None
  end.

(** Conversion by [type] followed by the [choices] check. *)
Definition get_value (ty : ArgType) (choices : option (list string)) (s : string)
  : option Value :=
  match ty with
  | TInt =>
      match int_of_str s with
      | Some z => match choices with None => Some (VInt z) | Some _ => None end
      | None => None
      end
  | TStr =>
      match choices with
      | None => Some (VStr s)
      | Some cs => if bool_decide (s ∈ cs) then Some (VStr s) else None
      end
  end.

(** One option occurrence [Opt f explicit], with the token after it. *)
Definition consume_optional (spec : list Argument) (f : string)
    (explicit : option string) (next : option Arg) (st : PState) : Step :=
  match find_action spec f with
  | None => Unknown
  | Some a =>
      match action a with
      | StoreTrue =>
          match explicit with
          | Some _ => Stop usage_error
          | None => Took {| ns := <[dest a := VBool true]> (ns st);
                            extras := extras st; loaded := loaded st |} false
          end
      | Help | Version =>
          match explicit with
          | Some _ => Stop usage_error
          | None => Stop info_exit
          end
      | Store ty choices =>
          match option_argument explicit next with
          | None => Stop usage_error
          | Some (s, used) =>
              match get_value ty choices s with
              | None => Stop usage_error
              | Some v => Took {| ns := <[dest a := v]> (ns st);
                                  extras := extras st; loaded := loaded st |} used
              end
          end
      | StoreModule base =>
          match option_argument explicit next with
          | None => Stop usage_error
          | Some (s, used) =>
              match load_module s with
              | None => Stop usage_error
              | Some c =>
                  if issubclass c base
                  then Took {| ns := <[dest a := VClass c]> (ns st);
                               extras := extras st;
                               loaded := loaded st ++ [(s, c)] |} used
                  else Stop usage_error
              end
          end
      end
  end.

(** A parser: its optional arguments and, when [add_subparsers] was
    called, the destination of the subcommand name, whether a
    subcommand is required, and the parser of each subcommand. *)
Record Parser := {
  arguments : list Argument;
  subparsers : option (string * bool * list (string * (list Arg -> Outcome PState)))
}.

Fixpoint lookup_parser {A} (name : string) (table : list (string * A)) : option A :=
  match table with
  | [] => None
  | (k, v) :: table' => if String.eqb k name then Some v else lookup_parser name table'
  end.

Definition add_extra (x : Arg) (st : PState) : PState :=
  {| ns := ns st; extras := extras st ++ [x]; loaded := loaded st |}.

(** The parsing loop, left to right.  A plain word that no option took
    is the subcommand when the parser has subparsers (everything after
    it belongs to the subcommand's parser, whose attributes are then
    copied onto the namespace), and is unrecognised otherwise. *)
Fixpoint parse_loop (p : Parser) (args : list Arg) (st : PState) : Outcome PState :=
  match args with
  | [] =>
      match subparsers p with
      | Some (_, true, _) => Exit usage_error
      | _ => Parsed st
      end
  | Word w :: rest =>
      match subparsers p with
      | None => parse_loop p rest (add_extra (Word w) st)
      | Some (d, _, table) =>
          match lookup_parser w table with
          | None => Exit usage_error
          | Some sub =>
              match sub rest with
              | Parsed s =>
                  Parsed {| ns := ns s ∪ <[d := VStr w]> (ns st);
                            extras := extras st ++ extras s;
                            loaded := loaded st ++ loaded s |}
              | Exit e => Exit e
              end
          end
      end
  | Opt f e :: rest =>
      match consume_optional (arguments p) f e (head rest) st with
      | Unknown => parse_loop p rest (add_extra (Opt f e) st)
      | Stop x => Exit x
      | Took st' false => parse_loop p rest st'
      | Took st' true =>
          match rest with
          | _ :: rest' => parse_loop p rest' st'
          | [] => Exit usage_error
          end
      end
  end.

Definition initial_namespace (p : Parser) : Namespace :=
  let n := install_defaults (arguments p) ∅ in
  match subparsers p with
  | Some (d, _, _) => match n !! d with None => <[d := VNone]> n | Some _ => n end
  | None => n
  end.

Definition parse_known_args (p : Parser) (args : list Arg) : Outcome PState :=
  parse_loop p args {| ns := initial_namespace p; extras := []; loaded := [] |}.

(** [parse_args]: unrecognised arguments are an error. *)
Definition parse_args (p : Parser) (args : list Arg) : Outcome PState :=
  match parse_known_args p args with
  | Parsed st => match extras st with [] => Parsed st | _ :: _ => Exit usage_error end
  | Exit e => Exit e
  end.

End Argparse.

(** ** The interpreter-wide state touched by [cli.py] *)

(** The two implementations [Transport.run] can be bound to. *)
Inductive RunImpl :=
| paramiko_Transport_run
| dropbear_transport_run.

Inductive LogLevel := DEBUG | INFO | WARNING.

(** [RichHandler(..., enable_link_path=..., show_path=...)]. *)
Record RichHandler := {
  enable_link_path : Value;
  show_path : Value
}.

(** The keyword arguments of one [SSHProxyServer(...)] call. *)
Record ProxyServer := {
  listen_port : Value;
  key_file : Value;
  key_algorithm : Value;
  key_length : Value;
  ssh_interface : Value;
  scp_interface : Value;
  sftp_interface : Value;
  sftp_handler : Value;
  server_tunnel_interface : Value;
  client_tunnel_interface : Value;
  authentication_interface : Value;
  authenticator : Value;
  transparent : Value;
  args : Namespace
}.

(** The class attributes [cli.py] assigns to, as the library code
    finds them when it is called. *)
Record ClassAttributes := {
  (** [paramiko.Transport.run] *)
  at_Transport_run : RunImpl;
  (** [paramiko.Transport._CLIENT_ID] *)
  at_Transport_CLIENT_ID : Value;
  (** [REQUEST_AGENT_BREAKIN] in the [__dict__] of each class that has it *)
  at_REQUEST_AGENT_BREAKIN : gmap string Value
}.

(** What the process does that is visible from outside, in order.
    [ProxyStart proxy classes] is the call [proxy.start()], made when the
    class attributes are [classes]: these are what the transports and
    authenticators created while the server runs will read. *)
Inductive Event :=
| ModuleLoaded (name : string) (cls : PyClass)
| ConsoleRule (title : option string)
| ConsolePrint (text : string)
| NewProxyServer (proxy : ProxyServer)
| ProxyStart (proxy : ProxyServer) (classes : ClassAttributes)
| RunAudit (a : Namespace).

Record Process := {
  (** [paramiko.Transport.run] *)
  Transport_run : RunImpl;
  (** [paramiko.Transport._CLIENT_ID] *)
  Transport_CLIENT_ID : Value;
  (** [REQUEST_AGENT_BREAKIN] in the [__dict__] of each class that has it *)
  REQUEST_AGENT_BREAKIN : gmap string Value;
  root_level : LogLevel;
  root_handlers : list RichHandler;
  paramiko_level : LogLevel;
  trace : list Event
}.

(** ** State and exceptions *)

Inductive Exc :=
| SystemExit (e : ExitKind)
| AttributeError (attr : string).

Definition M (A : Type) : Type := Process -> (Exc + A) * Process.

Definition ret {A} (a : A) : M A := fun p => (inr a, p).
Definition raise {A} (e : Exc) : M A := fun p => (inl e, p).
Definition bind {A B} (m : M A) (k : A -> M B) : M B :=
  fun p => match m p with
           | (inr a, p') => k a p'
           | (inl e, p') => (inl e, p')
           end.
Definition modify (f : Process -> Process) : M unit := fun p => (inr tt, f p).

Declare Scope py_scope.
Delimit Scope py_scope with py.
Notation "x <- m ;; k" := (bind m (fun x => k))
  (at level 100, m at next level, right associativity) : py_scope.
Notation "m ;; k" := (bind m (fun _ => k))
  (at level 100, right associativity) : py_scope.
Local Open Scope py_scope.

Definition emit (e : Event) : M unit :=
  modify (fun p =>
    {| Transport_run := Transport_run p; Transport_CLIENT_ID := Transport_CLIENT_ID p;
       REQUEST_AGENT_BREAKIN := REQUEST_AGENT_BREAKIN p;
       root_level := root_level p; root_handlers := root_handlers p;
       paramiko_level := paramiko_level p; trace := trace p ++ [e] |}).

Definition set_Transport_run (r : RunImpl) : M unit :=
  modify (fun p =>
    {| Transport_run := r; Transport_CLIENT_ID := Transport_CLIENT_ID p;
       REQUEST_AGENT_BREAKIN := REQUEST_AGENT_BREAKIN p;
       root_level := root_level p; root_handlers := root_handlers p;
       paramiko_level := paramiko_level p; trace := trace p |}).

Definition set_Transport_CLIENT_ID (v : Value) : M unit :=
  modify (fun p =>
    {| Transport_run := Transport_run p; Transport_CLIENT_ID := v;
       REQUEST_AGENT_BREAKIN := REQUEST_AGENT_BREAKIN p;
       root_level := root_level p; root_handlers := root_handlers p;
       paramiko_level := paramiko_level p; trace := trace p |}).

(** [obj.REQUEST_AGENT_BREAKIN = v]: only a class object takes the
    attribute here; [None], numbers and strings raise. *)
Definition set_REQUEST_AGENT_BREAKIN (obj : Value) (v : Value) : M unit :=
  match obj with
  | VClass c =>
      modify (fun p =>
        {| Transport_run := Transport_run p; Transport_CLIENT_ID := Transport_CLIENT_ID p;
           REQUEST_AGENT_BREAKIN := <[c := v]> (REQUEST_AGENT_BREAKIN p);
           root_level := root_level p; root_handlers := root_handlers p;
           paramiko_level := paramiko_level p; trace := trace p |})
  | _ => raise (AttributeError "REQUEST_AGENT_BREAKIN")
  end.

Definition set_root_logger (l : LogLevel) (hs : list RichHandler) : M unit :=
  modify (fun p =>
    {| Transport_run := Transport_run p; Transport_CLIENT_ID := Transport_CLIENT_ID p;
       REQUEST_AGENT_BREAKIN := REQUEST_AGENT_BREAKIN p;
       root_level := l; root_handlers := hs;
       paramiko_level := paramiko_level p; trace := trace p |}).

Definition set_paramiko_level (l : LogLevel) : M unit :=
  modify (fun p =>
    {| Transport_run := Transport_run p; Transport_CLIENT_ID := Transport_CLIENT_ID p;
       REQUEST_AGENT_BREAKIN := REQUEST_AGENT_BREAKIN p;
       root_level := root_level p; root_handlers := root_handlers p;
       paramiko_level := l; trace := trace p |}).

(** The class attributes as they are now. *)
Definition class_attributes (p : Process) : ClassAttributes :=
  {| at_Transport_run := Transport_run p;
     at_Transport_CLIENT_ID := Transport_CLIENT_ID p;
     at_REQUEST_AGENT_BREAKIN := REQUEST_AGENT_BREAKIN p |}.

(** [proxy.start()]: the call, in the current state of the classes. *)
Definition start (proxy : ProxyServer) : M unit :=
  fun p => emit (ProxyStart proxy (class_attributes p)) p.

(** [args.name] *)
Definition getattr (n : Namespace) (name : string) : M Value :=
  match n !! name with
  | Some v => ret v
  | None => raise (AttributeError name)
  end.

(** ** Attribute lookup on instances

    [inst.REQUEST_AGENT_BREAKIN] reads the instance's own attribute when
    it has one and otherwise the first class along the method resolution
    order of its class that defines it. *)
Record Instance := {
  inst_class : PyClass;
  inst_dict : option Value
}.

Fixpoint lookup_mro (d : gmap string Value) (classes : list PyClass) : option Value :=
  match classes with
  | [] => None
  | c :: classes' =>
      match d !! c with
      | Some v => Some v
      | None => lookup_mro d classes'
      end
  end.

Definition instance_getattr (mro : PyClass -> list PyClass) (p : Process) (i : Instance)
  : option Value :=
  match inst_dict i with
  | Some v => Some v
  | None => lookup_mro (REQUEST_AGENT_BREAKIN p) (mro (inst_class i))
  end.

(** ** [cli.py] *)

(** Comparison of an attribute with a string literal, [v == 'lit']. *)
Definition eq_str (v : Value) (lit : string) : bool :=
  match v with
  | VStr s => String.eqb s lit
  | _ => false
  end.

(** [v is not None] *)
Definition is_not_None (v : Value) : bool :=
  match v with
  | VNone => false
  | _ => true
  end.

(** The [-h/--help] argument every parser adds for itself. *)
Definition help_argument : Argument :=
  {| option_strings := ["-h"; "--help"]; dest := "help"; default := None; action := Help |}.

Fixpoint emit_all (es : list Event) : M unit :=
  match es with
  | [] => ret tt
  | e :: es' => emit e ;; emit_all es'
  end.

Section Cli.

(** [ssh_proxy_server.__version__.version] *)
Variable ssh_mitm_version : string.
Variable int_of_str : string -> option Z.
Variable load_module : string -> option PyClass.
Variable issubclass : PyClass -> PyClass -> bool.
(** The parser that [init_audit_parser] sets up for the [audit]
    subcommand ([ssh_proxy_server/audit/cli.py]). *)
Variable audit_parser : list Arg -> Outcome PState.

Definition init_server_parser : list Argument := [
  {| option_strings := ["--listen-port"]; dest := "listen_port";
     default := Some (VInt 10022); action := Store TInt None |};
  {| option_strings := ["--transparent"]; dest := "transparent";
     default := Some (VBool false); action := StoreTrue |};
  {| option_strings := ["--host-key"]; dest := "host_key";
     default := Some VNone; action := Store TStr None |};
  {| option_strings := ["--host-key-algorithm"]; dest := "host_key_algorithm";
     default := Some (VStr "rsa");
     action := Store TStr (Some ["dss"; "rsa"; "ecdsa"; "ed25519"]) |};
  {| option_strings := ["--host-key-length"]; dest := "host_key_length";
     default := Some (VInt 2048); action := Store TInt None |};
  {| option_strings := ["--ssh-interface"]; dest := "ssh_interface";
     default := Some (VClass "SSHMirrorForwarder");
     action := StoreModule "SSHBaseForwarder" |};
  {| option_strings := ["--scp-interface"]; dest := "scp_interface";
     default := Some (VClass "SCPStorageForwarder");
     action := StoreModule "SCPBaseForwarder" |};
  {| option_strings := ["--sftp-interface"]; dest := "sftp_interface";
     default := Some (VClass "SFTPProxyServerInterface");
     action := StoreModule "BaseSFTPServerInterface" |};
  {| option_strings := ["--sftp-handler"]; dest := "sftp_handler";
     default := Some (VClass "SFTPHandlerStoragePlugin");
     action := StoreModule "SFTPHandlerBasePlugin" |};
  {| option_strings := ["--server-tunnel"]; dest := "server_tunnel_interface";
     default := Some (VClass "InjectableServerTunnelForwarder");
     action := StoreModule "ServerTunnelBaseForwarder" |};
  {| option_strings := ["--client-tunnel"]; dest := "client_tunnel_interface";
     default := Some (VClass "ClientTunnelForwarder");
     action := StoreModule "ClientTunnelBaseForwarder" |};
  {| option_strings := ["--auth-interface"]; dest := "auth_interface";
     default := Some (VClass "ServerInterface");
     action := StoreModule "BaseServerInterface" |};
  {| option_strings := ["--authenticator"]; dest := "authenticator";
     default := Some (VClass "AuthenticatorPassThrough");
     action := StoreModule "Authenticator" |};
  {| option_strings := ["--request-agent-breakin"]; dest := "request_agent_breakin";
     default := Some (VBool false); action := StoreTrue |};
  {| option_strings := ["--banner-name"]; dest := "banner_name";
     default := Some (VStr ("SSHMITM_" +:+ ssh_mitm_version));
     action := Store TStr None |};
  {| option_strings := ["--session-class"]; dest := "session_class";
     default := Some (VClass "Session");
     action := StoreModule "BaseSession" |}
].

Definition run_server (args : Namespace) : M unit :=
  request_agent_breakin <- getattr args "request_agent_breakin" ;;
  (if truthy request_agent_breakin
   then authenticator <- getattr args "authenticator" ;;
        set_REQUEST_AGENT_BREAKIN authenticator (VBool true)
   else ret tt) ;;
  emit (ConsoleRule (Some "[bold blue]SSH-MITM - ssh audits made simple")) ;;
  emit (ConsolePrint ("[bold]Version:[/bold] " +:+ ssh_mitm_version)) ;;
  emit (ConsolePrint "[bold]Documentation:[/bold] https://docs.ssh-mitm.at") ;;
  emit (ConsolePrint "[bold]Issues:[/bold] https://github.com/ssh-mitm/ssh-mitm/issues") ;;
  emit (ConsoleRule None) ;;
  listen_port <- getattr args "listen_port" ;;
  host_key <- getattr args "host_key" ;;
  host_key_algorithm <- getattr args "host_key_algorithm" ;;
  host_key_length <- getattr args "host_key_length" ;;
  ssh_interface <- getattr args "ssh_interface" ;;
  scp_interface <- getattr args "scp_interface" ;;
  sftp_interface <- getattr args "sftp_interface" ;;
  sftp_handler <- getattr args "sftp_handler" ;;
  server_tunnel_interface <- getattr args "server_tunnel_interface" ;;
  client_tunnel_interface <- getattr args "client_tunnel_interface" ;;
  auth_interface <- getattr args "auth_interface" ;;
  authenticator <- getattr args "authenticator" ;;
  transparent <- getattr args "transparent" ;;
  let proxy :=
    {| listen_port := listen_port;
       key_file := host_key;
       key_algorithm := host_key_algorithm;
       key_length := host_key_length;
       ssh_interface := ssh_interface;
       scp_interface := scp_interface;
       sftp_interface := sftp_interface;
       sftp_handler := sftp_handler;
       server_tunnel_interface := server_tunnel_interface;
       client_tunnel_interface := client_tunnel_interface;
       authentication_interface := auth_interface;
       authenticator := authenticator;
       transparent := transparent;
       args := args |} in
  emit (NewProxyServer proxy) ;;
  banner_name <- getattr args "banner_name" ;;
  (if is_not_None banner_name
   then set_Transport_CLIENT_ID banner_name
   else ret tt) ;;
  start proxy.

(** [run_audit] lives in [ssh_proxy_server/audit/cli.py]; here it is
    the event of handing the namespace over to it. *)
Definition run_audit (args : Namespace) : M unit :=
  emit (RunAudit args).

Definition parser_mitm_server : Parser :=
  {| arguments := help_argument :: init_server_parser; subparsers := None |}.

(** The top-level parser of [main]: its own arguments and the two
    subcommands, [subparsers.required = True]. *)
Definition main_parser : Parser :=
  {| arguments := [
       help_argument;
       {| option_strings := ["--version"]; dest := "version";
          default := None; action := Version |};
       {| option_strings := ["-d"; "--debug"]; dest := "debug";
          default := Some (VBool false); action := StoreTrue |};
       {| option_strings := ["--paramiko-log-level"]; dest := "paramiko_log_level";
          default := Some (VStr "warning");
          action := Store TStr (Some ["warning"; "info"; "debug"]) |};
       {| option_strings := ["--disable-workarounds"]; dest := "disable_workarounds";
          default := Some (VBool false); action := StoreTrue |}
     ];
     subparsers := Some ("subparser_name", true, [
       ("server", parse_known_args int_of_str load_module issubclass parser_mitm_server);
       ("audit", audit_parser)
     ]) |}.

(** The first block of [main]: when running as an AppImage, a lone
    empty argument is dropped.  [argv] is [sys.argv[1:]]. *)
Definition appimage_argv (APPIMAGE : option string) (argv : list Arg) : list Arg :=
  if match APPIMAGE with Some s => truthy (VStr s) | None => false end
  then (if bool_decide (argv = [Word ""]) then [] else argv)
  else argv.

(** [main], given the value of the [APPIMAGE] environment variable and
    [sys.argv[1:]]. *)
Definition main (APPIMAGE : option string) (argv : list Arg) : M unit :=
  let argv := appimage_argv APPIMAGE argv in
  match parse_args int_of_str load_module issubclass main_parser argv with
  | Exit e => raise (SystemExit e)
  | Parsed st =>
      emit_all (map (fun '(name, cls) => ModuleLoaded name cls) (loaded st)) ;;
      let args := ns st in
      debug <- getattr args "debug" ;;
      set_root_logger (if truthy debug then DEBUG else INFO)
                      [ {| enable_link_path := debug; show_path := debug |} ] ;;
      disable_workarounds <- getattr args "disable_workarounds" ;;
      (if negb (truthy disable_workarounds)
       then set_Transport_run dropbear_transport_run
       else ret tt) ;;
      paramiko_log_level <- getattr args "paramiko_log_level" ;;
      (if eq_str paramiko_log_level "debug" then set_paramiko_level DEBUG
       else if eq_str paramiko_log_level "info" then set_paramiko_level INFO
       else set_paramiko_level WARNING) ;;
      subparser_name <- getattr args "subparser_name" ;;
      if eq_str subparser_name "server" then run_server args
      else if eq_str subparser_name "audit" then run_audit args
      else ret tt
  end.

End Cli.

(** ** A concrete environment

    Concrete values for what [cli.py] imports, used to run the
    definitions above on actual command lines. *)
Module Sample.

Definition version : string := "2.1.0".

Definition digit (a : ascii) : option Z :=
  let n := Z.of_nat (nat_of_ascii a) in
  if (48 <=? n)%Z && (n <=? 57)%Z then Some (n - 48)%Z else None.

Fixpoint digits (s : string) (acc : Z) : option Z :=
  match s with
  | EmptyString => Some acc
  | String a s' =>
      match digit a with
      | Some d => digits s' (10 * acc + d)%Z
      | None => None
      end
  end.

(** Plain decimal numerals, the part of [int(s)] the examples need. *)
Definition int_of_str (s : string) : option Z :=
  match s with
  | EmptyString => None
  | _ => digits s 0
  end.

(** The direct base class of each class the examples mention. *)
Definition base (c : PyClass) : option PyClass :=
  if String.eqb c "AuthenticatorPassThrough" then Some "Authenticator"
  else if String.eqb c "AuthenticatorPassword" then Some "Authenticator"
  else if String.eqb c "SSHMirrorForwarder" then Some "SSHBaseForwarder"
  else if String.eqb c "SSHLogForwarder" then Some "SSHBaseForwarder"
  else None.

Definition mro (c : PyClass) : list PyClass :=
  match base c with
  | Some b => [c; b]
  | None => [c]
  end.

Definition issubclass (c b : PyClass) : bool :=
  bool_decide (b ∈ mro c).

Definition load_module (name : string) : option PyClass :=
  match base name with
  | Some _ => Some name
  | None => None
  end.

(** An [audit] parser without arguments of its own. *)
Definition audit_parser : list Arg -> Outcome PState :=
  parse_known_args int_of_str load_module issubclass
    {| arguments := [help_argument]; subparsers := None |}.

Definition main := main version int_of_str load_module issubclass audit_parser.
Definition run_server := run_server version.
Definition parser := main_parser version int_of_str load_module issubclass audit_parser.

(** The state [parse_args] returns on a command line it accepts. *)
Definition parsed (argv : list Arg) : PState :=
  match parse_args int_of_str load_module issubclass parser argv with
  | Parsed st => st
  | Exit _ => {| ns := ∅; extras := []; loaded := [] |}
  end.

(** [ssh-mitm -d server --listen-port 2222 --host-key-algorithm=ecdsa
    --authenticator AuthenticatorPassword --request-agent-breakin] *)
Definition audit_run : list Arg := [
  Opt "-d" None; Word "server";
  Opt "--listen-port" None; Word "2222";
  Opt "--host-key-algorithm" (Some "ecdsa");
  Opt "--authenticator" None; Word "AuthenticatorPassword";
  Opt "--request-agent-breakin" None
].

(** An authenticator of some other session. *)
Definition other_authenticator : Instance :=
  {| inst_class := "AuthenticatorPassThrough"; inst_dict := None |}.


(** A fresh interpreter: the library's own [Transport] attributes, the
    [REQUEST_AGENT_BREAKIN = False] of the [Authenticator] base class,
    the root logger at its default level, nothing done yet. *)
Definition fresh : Process :=
  {| Transport_run := paramiko_Transport_run;
     Transport_CLIENT_ID := VStr "paramiko_2.7.2";
     REQUEST_AGENT_BREAKIN := {[ "Authenticator" := VBool false ]};
     root_level := WARNING;
     root_handlers := [];
     paramiko_level := WARNING;
     trace := [] |}.

End Sample.

(** ** Reading a run *)

(** The servers constructed, the servers started and the audits run in
    a stretch of the trace. *)
Definition constructed (t : list Event) : list ProxyServer :=
  omap (fun e => match e with NewProxyServer x => Some x | _ => None end) t.

Definition started (t : list Event) : list ProxyServer :=
  omap (fun e => match e with ProxyStart x _ => Some x | _ => None end) t.

(** The servers started, each with the class attributes it was started
    under. *)
Definition starts (t : list Event) : list (ProxyServer * ClassAttributes) :=
  omap (fun e => match e with ProxyStart x c => Some (x, c) | _ => None end) t.

Definition audits (t : list Event) : list Namespace :=
  omap (fun e => match e with RunAudit a => Some a | _ => None end) t.

Definition modules_loaded (t : list Event) : list (string * PyClass) :=
  omap (fun e => match e with ModuleLoaded n c => Some (n, c) | _ => None end) t.

(** The subcommand named on a command line: the first plain word that
    is not the argument of [--paramiko-log-level], the only top-level
    option that takes one. *)
Fixpoint subcommand (argv : list Arg) : option string :=
  match argv with
  | [] => None
  | Word w :: _ => Some w
  | Opt f e :: rest =>
      match e, rest with
      | None, Word _ :: rest' =>
          if String.eqb f "--paramiko-log-level" then subcommand rest' else subcommand rest
      | _, _ => subcommand rest
      end
  end.

(** The arguments that follow the subcommand. *)
Fixpoint subcommand_arguments (argv : list Arg) : list Arg :=
  match argv with
  | [] => []
  | Word _ :: rest => rest
  | Opt f e :: rest =>
      match e, rest with
      | None, Word _ :: rest' =>
          if String.eqb f "--paramiko-log-level"
          then subcommand_arguments rest' else subcommand_arguments rest
      | _, _ => subcommand_arguments rest
      end
  end.

(** The argument given to the last occurrence of the option [f], if the
    option occurs with one. *)
Fixpoint supplied (f : string) (argv : list Arg) (acc : option string) : option string :=
  match argv with
  | [] => acc
  | Word _ :: rest => supplied f rest acc
  | Opt g e :: rest =>
      if String.eqb g f
      then match e, rest with
           | Some s, _ => supplied f rest (Some s)
           | None, Word w :: _ => supplied f rest (Some w)
           | None, _ => supplied f rest acc
           end
      else supplied f rest acc
  end.

(** The option [f] does not occur. *)
Definition omitted (f : string) (argv : list Arg) : Prop :=
  forall e, Opt f e ∉ argv.

(** ** Behind the constructor call *)

(** Modelled from the spec: [SSHProxyServer]'s host key generation
    ([ssh_proxy_server/server.py] is not among the sources).  "host key
    file, algorithm ∈ {dss, rsa, ecdsa, ed25519}, key length (rsa/dss
    only)": the configured length is the size of a generated key for
    [rsa] and [dss] and is not used for the other algorithms. *)
Definition generated_key_bits (proxy : ProxyServer) : option Value :=
  if eq_str (key_algorithm proxy) "rsa" || eq_str (key_algorithm proxy) "dss"
  then Some (key_length proxy)
  else None.

Record Connection := {
  conn_id : nat;
  handshake_succeeds : bool
}.

Inductive ServeEvent :=
| Handshake (conn : nat) (banner : Value) (key_file key_algorithm key_length : Value)
| SessionHandOff (conn : nat)
| ConnectionClosed (conn : nat).

(** Modelled from the spec: [SSHProxyServer.start]
    ([ssh_proxy_server/server.py] is not among the sources).  "For each
    accepted raw connection, performs the server-role protocol handshake
    using the configured host key/algorithm/length and banner string,
    then constructs and hands off a Session"; "a handshake failure on one
    connection is isolated — it closes that connection and does not
    affect others or the listener".  The banner string a handshake uses
    is [Transport._CLIENT_ID] as it is when [start] is called, so the
    server takes the class attributes of its [ProxyStart] event. *)
Fixpoint SSHProxyServer_start (proxy : ProxyServer) (classes : ClassAttributes)
    (accepted : list Connection) : list ServeEvent :=
  match accepted with
  | [] => []
  | c :: rest =>
      Handshake (conn_id c) (at_Transport_CLIENT_ID classes)
                (key_file proxy) (key_algorithm proxy) (key_length proxy)
      :: (if handshake_succeeds c then SessionHandOff (conn_id c)
          else ConnectionClosed (conn_id c))
      :: SSHProxyServer_start proxy classes rest
  end.

(** ** The session's authentication phase *)

Inductive SessionState :=
| LISTENING_FOR_AUTH
| AUTHENTICATING
| AUTHENTICATED
| UPSTREAM_CONNECTING
| ACTIVE
| CLOSING
| CLOSED.

Inductive AuthMethod :=
| auth_none
| auth_password
| auth_publickey
| auth_keyboard_interactive.

Inductive Decision :=
| reject
| accept
| accept_passthrough.

Record AuthenticationAttempt := {
  method : AuthMethod;
  credential : string
}.

(** [onAuthAttempt]; [None] is an implementation that throws. *)
Definition Authenticator := AuthenticationAttempt -> option Decision.

Record Session := {
  state : SessionState;
  rejected_attempts : nat;
  attempt_bound : nat
}.

Definition new_session (bound : nat) : Session :=
  {| state := LISTENING_FOR_AUTH; rejected_attempts := 0; attempt_bound := bound |}.

(** Modelled from the spec: the authentication transitions of the
    Session state machine ([ssh_proxy_server/session.py] and
    [authentication.py] are not among the sources).
    "LISTENING_FOR_AUTH → AUTHENTICATING: first auth attempt received";
    "AUTHENTICATING → AUTHENTICATING: attempt rejected, attempt counter
    incremented (self-loop) until bound exceeded → CLOSING";
    "AUTHENTICATING → AUTHENTICATED: Authenticator returns
    accepted/accepted-passthrough"; "an Authenticator implementation that
    throws is treated as a rejection". *)
Definition on_auth_attempt (auth : Authenticator) (s : Session)
    (a : AuthenticationAttempt) : Session :=
  match state s with
  | LISTENING_FOR_AUTH | AUTHENTICATING =>
      match auth a with
      | Some accept | Some accept_passthrough =>
          {| state := AUTHENTICATED;
             rejected_attempts := rejected_attempts s;
             attempt_bound := attempt_bound s |}
      | Some reject | None =>
          let n := S (rejected_attempts s) in
          {| state := if (attempt_bound s <? n)%nat then CLOSING else AUTHENTICATING;
             rejected_attempts := n;
             attempt_bound := attempt_bound s |}
      end
  | _ => s
  end.

Definition authenticate (auth : Authenticator) (s : Session)
    (attempts : list AuthenticationAttempt) : Session :=
  foldl (on_auth_attempt auth) s attempts.

Definition rejects (auth : Authenticator) (a : AuthenticationAttempt) : Prop :=
  auth a = Some reject \/ auth a = None.

(** ** Relaying a channel *)

Inductive Direction := to_server | to_client.

Record Channel := {
  server_side : list Byte.byte;
  client_side : list Byte.byte;
  sent_to_server : nat;
  sent_to_client : nat
}.

Definition open_channel : Channel :=
  {| server_side := []; client_side := []; sent_to_server := 0; sent_to_client := 0 |}.

(** [shouldInject(channel) -> bytes|none] *)
Definition TunnelInjector := Channel -> Direction -> option (list Byte.byte).

Definition write (d : Direction) (bytes : list Byte.byte) (ch : Channel) : Channel :=
  match d with
  | to_server =>
      {| server_side := server_side ch ++ bytes; client_side := client_side ch;
         sent_to_server := sent_to_server ch; sent_to_client := sent_to_client ch |}
  | to_client =>
      {| server_side := server_side ch; client_side := client_side ch ++ bytes;
         sent_to_server := sent_to_server ch; sent_to_client := sent_to_client ch |}
  end.

Definition count (d : Direction) (n : nat) (ch : Channel) : Channel :=
  match d with
  | to_server =>
      {| server_side := server_side ch; client_side := client_side ch;
         sent_to_server := sent_to_server ch + n; sent_to_client := sent_to_client ch |}
  | to_client =>
      {| server_side := server_side ch; client_side := client_side ch;
         sent_to_server := sent_to_server ch; sent_to_client := sent_to_client ch + n |}
  end.

(** Modelled from the spec: the relaying forwarder's [onData]
    ([ssh_proxy_server/forwarders] is not among the sources).  "Called for
    every buffer received on either direction"; "bytes within one channel
    direction are forwarded in receipt order"; "injected bytes are
    written to one side without being read from the other ... injected
    data is strictly additive at a chosen offset", the injection point
    being before each relayed buffer. *)
Definition onData (injector : option TunnelInjector) (ch : Channel)
    (received : Direction * list Byte.byte) : Channel :=
  let '(d, bytes) := received in
  let ch' := match injector with
             | Some shouldInject =>
                 match shouldInject ch d with
                 | Some extra => write d extra ch
                 | None => ch
                 end
             | None => ch
             end in
  count d (length bytes) (write d bytes ch').

Definition relay (injector : option TunnelInjector) (ch : Channel)
    (received : list (Direction * list Byte.byte)) : Channel :=
  foldl (onData injector) ch received.

(** The bytes received for one direction, in receipt order. *)
Definition stream (d : Direction) (received : list (Direction * list Byte.byte))
  : list Byte.byte :=
  concat (omap (fun '(d', bytes) =>
                  match d, d' with
                  | to_server, to_server | to_client, to_client => Some bytes
                  | _, _ => None
                  end) received).

(** What the receiving side of a direction has observed. *)
Definition observed (d : Direction) (ch : Channel) : list Byte.byte :=
  match d with
  | to_server => server_side ch
  | to_client => client_side ch
  end.

Definition forwarded (d : Direction) (ch : Channel) : nat :=
  match d with
  | to_server => sent_to_server ch
  | to_client => sent_to_client ch
  end.

Definition non_injected (injector : option TunnelInjector) : Prop :=
  match injector with
  | None => True
  | Some shouldInject => forall ch d, shouldInject ch d = None
  end.

(** ** What a parsed namespace can hold *)

(** The values an action can store. *)
Definition may_store (int_of_str : string -> option Z)
    (load_module : string -> option PyClass) (issubclass : PyClass -> PyClass -> bool)
    (act : Action) (v : Value) : Prop :=
  match act with
  | StoreTrue => v = VBool true
  | Store TStr None => exists s, v = VStr s
  | Store TStr (Some cs) => exists s, s ∈ cs /\ v = VStr s
  | Store TInt None => exists s z, int_of_str s = Some z /\ v = VInt z
  | Store TInt (Some _) => False
  | StoreModule base =>
      exists s c, load_module s = Some c /\ issubclass c base = true /\ v = VClass c
  | Help | Version => False
  end.

(** Every attribute is the default of a declared argument or a value
    its action stored. *)
Definition typed_by (int_of_str : string -> option Z)
    (load_module : string -> option PyClass) (issubclass : PyClass -> PyClass -> bool)
    (spec : list Argument) (n : Namespace) : Prop :=
  forall d v, n !! d = Some v ->
    exists a, a ∈ spec /\ dest a = d /\
      (default a = Some v \/ may_store int_of_str load_module issubclass (action a) v).

(** Every declared argument with a default has its attribute. *)
Definition complete_for (spec : list Argument) (n : Namespace) : Prop :=
  forall a, a ∈ spec -> default a <> None -> is_Some (n !! dest a).

(** Every class the loader was asked for is the one it returned. *)
Definition loaded_by (load_module : string -> option PyClass)
    (l : list (string * PyClass)) : Prop :=
  forall s c, (s, c) ∈ l -> load_module s = Some c.

(** [args.name] when the attribute is known to be there. *)
Definition attr (n : Namespace) (name : string) : Value :=
  match n !! name with
  | Some v => v
  | None => VNone
  end.


(** A class selection: a class object, the declared default or one the
    loader returned for a name and that derives from the base class. *)
Definition selected (load_module : string -> option PyClass)
    (issubclass : PyClass -> PyClass -> bool)
    (v : Value) (default_class base : PyClass) : Prop :=
  exists c, v = VClass c
    /\ (c = default_class
        \/ exists name, load_module name = Some c /\ issubclass c base = true).

(** What [cli.py] configures in the libraries: the transport's run
    loop and the two loggers. *)
Definition library_configuration (p : Process)
  : RunImpl * LogLevel * list RichHandler * LogLevel :=
  (Transport_run p, root_level p, root_handlers p, paramiko_level p).

(** A computation that leaves the library configuration and the list
    of started servers alone, however it ends, and that can only fail
    with an [AttributeError]. *)
Definition quiet {A} (m : M A) : Prop :=
  forall p,
    library_configuration (snd (m p)) = library_configuration p
    /\ started (trace (snd (m p))) = started (trace p)
    /\ (forall e, fst (m p) = inl e -> exists name, e = AttributeError name).

(** A computation that leaves the library configuration alone. *)
Definition keeps_configuration {A} (m : M A) : Prop :=
  forall p, library_configuration (snd (m p)) = library_configuration p.

(** A computation that, when it fails, fails with an [AttributeError]
    and has started no server. *)
Definition fails_before_start {A} (m : M A) : Prop :=
  forall p e, fst (m p) = inl e ->
    started (trace (snd (m p))) = started (trace p)
    /\ exists name, e = AttributeError name.

(** A computation that can only succeed when the namespace has the
    listed attributes. *)
Definition requires {A} (names : list string) (n : Namespace) (m : M A) : Prop :=
  forall p a, fst (m p) = inr a -> Forall (fun d => is_Some (n !! d)) names.

(** The value a one-argument action stores for an argument string,
    when it accepts it. *)
Definition stored_value (int_of_str : string -> option Z)
    (load_module : string -> option PyClass) (issubclass : PyClass -> PyClass -> bool)
    (act : Action) (s : string) : option Value :=
  match act with
  | Store ty choices => get_value int_of_str ty choices s
  | StoreModule base =>
      match load_module s with
      | Some c => if issubclass c base then Some (VClass c) else None
      | None => None
      end
  | _ => None
  end.

(** ** Shapes of command lines *)

(** One of the option strings [fs] occurs as a bare flag. *)
Definition flag_given (fs : list string) (argv : list Arg) : bool :=
  existsb (fun x => match x with
                    | Opt g None => bool_decide (g ∈ fs)
                    | _ => false
                    end) argv.

Definition takes_argument (act : Action) : bool :=
  match act with
  | Store _ _ | StoreModule _ => true
  | _ => false
  end.

(** The options before the subcommand. *)
Fixpoint global_arguments (argv : list Arg) : list Arg :=
  match argv with
  | [] => []
  | Word _ :: _ => []
  | Opt f e :: rest =>
      match e, rest with
      | None, Word w :: rest' =>
          if String.eqb f "--paramiko-log-level"
          then Opt f e :: Word w :: global_arguments rest'
          else Opt f e :: global_arguments rest
      | _, _ => Opt f e :: global_arguments rest
      end
  end.

(** Concrete sessions and channels, for running the two models above. *)
Module SampleSession.

Definition deny_all : Authenticator := fun _ => Some reject.

Definition three_attempts : list AuthenticationAttempt := [
  {| method := auth_none; credential := "" |};
  {| method := auth_password; credential := "secret" |};
  {| method := auth_publickey; credential := "ssh-ed25519 AAAA" |}
].

Definition ls_then_prompt : list (Direction * list Byte.byte) := [
  (to_server, [Byte.x6c; Byte.x73]);
  (to_client, [Byte.x24]);
  (to_server, [Byte.x0a])
].

Definition two_connections : list Connection := [
  {| conn_id := 1; handshake_succeeds := true |};
  {| conn_id := 2; handshake_succeeds := false |}
].

End SampleSession.

(** * Properties *)

Local Open Scope list_scope.

(** ** Authentication attempts *)

Section AuthenticationBound.

Variable auth : Authenticator.

Lemma on_auth_attempt_rejected s a :
  rejects auth a ->
  state s = LISTENING_FOR_AUTH \/ state s = AUTHENTICATING ->
  on_auth_attempt auth s a =
    {| state := if (attempt_bound s <? S (rejected_attempts s))%nat
                then CLOSING else AUTHENTICATING;
       rejected_attempts := S (rejected_attempts s);
       attempt_bound := attempt_bound s |}.
Proof.
  intros Hrej Hst. unfold on_auth_attempt.
  destruct Hst as [-> | ->]; destruct Hrej as [-> | ->]; reflexivity.
Qed.

Lemma on_auth_attempt_closing s a :
  state s = CLOSING -> on_auth_attempt auth s a = s.
Proof. intros H. unfold on_auth_attempt. rewrite H. reflexivity. Qed.

(** While the bound is not exceeded, rejected attempts only count. *)
Lemma authenticate_within_bound attempts : forall s,
  Forall (rejects auth) attempts ->
  state s = LISTENING_FOR_AUTH \/ state s = AUTHENTICATING ->
  rejected_attempts s + length attempts <= attempt_bound s ->
  let s' := authenticate auth s attempts in
  rejected_attempts s' = rejected_attempts s + length attempts
  /\ attempt_bound s' = attempt_bound s
  /\ (state s' = AUTHENTICATING \/ (attempts = [] /\ state s' = state s)).
Proof.
  induction attempts as [|a l IH]; intros s Hall Hst Hle; cbn.
  - repeat split; [lia | right; done].
  - apply Forall_cons in Hall as [Ha Hl]. cbn in Hle.
    rewrite (on_auth_attempt_rejected s a Ha Hst).
    destruct (Nat.ltb_spec (attempt_bound s) (S (rejected_attempts s))) as [Hlt|Hge];
      [lia|].
    set (s1 := {| state := AUTHENTICATING;
                  rejected_attempts := S (rejected_attempts s);
                  attempt_bound := attempt_bound s |}).
    destruct (IH s1 Hl) as (Hn & Hb & Hs); [right; done | cbn; lia |].
    fold (authenticate auth s1 l). cbn in Hn, Hb.
    repeat split; [lia | done |].
    left. destruct Hs as [Hs | [-> Hs]]; [done | done].
Qed.

End AuthenticationBound.

(** C7. With a bound of [B] rejected attempts per Session, whatever the
    rejected attempts are (and whether the Authenticator rejects or
    throws), after each of the attempts 1..B the Session is still in
    [AUTHENTICATING], and after attempt B+1 it is in [CLOSING]. *)
Theorem authentication_attempts_bounded
    (auth : Authenticator) (B : nat) (attempts : list AuthenticationAttempt) (k : nat) :
  Forall (rejects auth) attempts ->
  k <= length attempts ->
  (1 <= k <= B ->
     state (authenticate auth (new_session B) (take k attempts)) = AUTHENTICATING)
  /\ (k = S B ->
     state (authenticate auth (new_session B) (take k attempts)) = CLOSING).
Proof.
  intros Hall Hk. split.
  - intros [H1 HB].
    assert (Hlen : length (take k attempts) = k) by (rewrite length_take; lia).
    destruct (authenticate_within_bound auth (take k attempts) (new_session B))
      as (_ & _ & [Hs | [Hnil _]]).
    + by apply Forall_take.
    + left; reflexivity.
    + cbn. lia.
    + exact Hs.
    + rewrite Hnil in Hlen. cbn in Hlen. lia.
  - intros ->.
    destruct (lookup_lt_is_Some_2 attempts B) as (a & Ha); [lia|].
    pose proof (take_S_r attempts B a Ha) as Hlast.
    rewrite Hlast. unfold authenticate. rewrite foldl_snoc.
    fold (authenticate auth (new_session B) (take B attempts)).
    assert (Hlen : length (take B attempts) = B) by (rewrite length_take; lia).
    destruct (authenticate_within_bound auth (take B attempts) (new_session B))
      as (Hn & Hb & Hs).
    + by apply Forall_take.
    + left; reflexivity.
    + cbn. lia.
    + cbn in Hn, Hb.
      rewrite on_auth_attempt_rejected.
      * cbn. rewrite Hn, Hb, Hlen.
        rewrite Nat.leb_refl. reflexivity.
      * apply (Forall_forall (rejects auth) attempts); [exact Hall|].
        apply list_elem_of_lookup. exists B. exact Ha.
      * destruct Hs as [Hs | [_ Hs]]; [right; exact Hs | left; exact Hs].
Qed.

(** C7, on three rejected attempts against a bound of two. *)
Lemma authentication_attempts_bounded_witness :
  state (authenticate SampleSession.deny_all (new_session 2)
           (take 2 SampleSession.three_attempts)) = AUTHENTICATING
  /\ state (authenticate SampleSession.deny_all (new_session 2)
           (take 3 SampleSession.three_attempts)) = CLOSING.
Proof.
  split.
  - apply (authentication_attempts_bounded
             SampleSession.deny_all 2 SampleSession.three_attempts 2).
    + repeat constructor.
    + cbn. lia.
    + lia.
  - apply (authentication_attempts_bounded
             SampleSession.deny_all 2 SampleSession.three_attempts 3).
    + repeat constructor.
    + cbn. lia.
    + reflexivity.
Defined.

(** ** Relaying *)

Section Relay.

Variable injector : option TunnelInjector.
Hypothesis plain : non_injected injector.

Lemma onData_plain ch d bytes :
  onData injector ch (d, bytes) = count d (length bytes) (write d bytes ch).
Proof.
  unfold onData. destruct injector as [f|]; [|reflexivity].
  cbn in plain. rewrite plain. reflexivity.
Qed.

Lemma observed_onData ch d d' bytes :
  observed d (onData injector ch (d', bytes)) =
  observed d ch ++ stream d [(d', bytes)].
Proof.
  rewrite onData_plain.
  destruct d, d'; cbn; rewrite ?app_nil_r; reflexivity.
Qed.

Lemma stream_cons d x received :
  stream d (x :: received) = stream d [x] ++ stream d received.
Proof.
  unfold stream. destruct x as [d' bytes].
  destruct d, d'; cbn; rewrite ?app_nil_r; reflexivity.
Qed.

Lemma observed_relay received : forall ch d,
  observed d (relay injector ch received) = observed d ch ++ stream d received.
Proof.
  induction received as [|[d' bytes] l IH]; intros ch d.
  - cbn. by rewrite app_nil_r.
  - unfold relay. cbn [foldl]. fold (relay injector (onData injector ch (d', bytes)) l).
    rewrite IH, observed_onData, (stream_cons d (d', bytes) l).
    by rewrite app_assoc.
Qed.

End Relay.

(** C8. On a channel without injection, whatever buffers arrive and
    however the two directions interleave, the receiving side of each
    direction observes exactly the bytes received for that direction, in
    receipt order. *)
Theorem relay_is_identity
    (injector : option TunnelInjector)
    (received : list (Direction * list Byte.byte)) (d : Direction) :
  non_injected injector ->
  observed d (relay injector open_channel received) = stream d received.
Proof.
  intros plain. rewrite (observed_relay injector plain).
  destruct d; reflexivity.
Qed.

(** C8, on a short shell exchange. *)
Lemma relay_is_identity_witness :
  observed to_server (relay None open_channel SampleSession.ls_then_prompt)
  = [Byte.x6c; Byte.x73; Byte.x0a].
Proof.
  rewrite (relay_is_identity None SampleSession.ls_then_prompt to_server).
  - reflexivity.
  - exact I.
Defined.

(** ** Serving connections *)

Lemma start_handshakes proxy p accepted conn :
  conn ∈ accepted ->
  Handshake (conn_id conn) (at_Transport_CLIENT_ID p)
            (key_file proxy) (key_algorithm proxy) (key_length proxy)
    ∈ SSHProxyServer_start proxy p accepted.
Proof.
  induction accepted as [|c0 rest IH]; intros Hin; [by apply elem_of_nil in Hin|].
  cbn. apply elem_of_cons in Hin as [-> | Hin]; [by left|].
  right. right. by apply IH.
Qed.

Lemma start_banner proxy p accepted c b k a l :
  Handshake c b k a l ∈ SSHProxyServer_start proxy p accepted ->
  b = at_Transport_CLIENT_ID p.
Proof.
  induction accepted as [|c0 rest IH]; cbn; intros Hin; [by apply elem_of_nil in Hin|].
  apply elem_of_cons in Hin as [[= _ -> _ _ _] | Hin]; [done|].
  apply elem_of_cons in Hin as [Hin | Hin]; [by destruct (handshake_succeeds c0)|].
  by apply IH.
Qed.

Lemma start_hand_off proxy p accepted : forall i c,
  SSHProxyServer_start proxy p accepted !! i = Some (SessionHandOff c) ->
  exists j, i = S j
    /\ SSHProxyServer_start proxy p accepted !! j =
         Some (Handshake c (at_Transport_CLIENT_ID p)
                 (key_file proxy) (key_algorithm proxy) (key_length proxy)).
Proof.
  induction accepted as [|c0 rest IH]; intros i c; cbn; [by rewrite lookup_nil|].
  destruct i as [|[|i]]; cbn.
  - discriminate.
  - destruct (handshake_succeeds c0); intros [= <-]. by exists 0.
  - intros H. destruct (IH i c H) as (j & -> & Hj). exists (S (S j)). done.
Qed.

(** ** The parsing loop *)

Section ArgparseFacts.

Variable int_of_str : string -> option Z.
Variable load_module : string -> option PyClass.
Variable issubclass : PyClass -> PyClass -> bool.

Local Abbreviation consume_optional := (consume_optional int_of_str load_module issubclass).
Local Abbreviation parse_loop := (parse_loop int_of_str load_module issubclass).
Local Abbreviation get_value := (get_value int_of_str).
Local Abbreviation may_store := (may_store int_of_str load_module issubclass).
Local Abbreviation typed_by := (typed_by int_of_str load_module issubclass).

Lemma find_action_Some spec f a :
  find_action spec f = Some a -> a ∈ spec /\ f ∈ option_strings a.
Proof.
  unfold find_action. intros H. apply find_some in H as [Hin Hf].
  split; [by apply list_elem_of_In | by apply bool_decide_eq_true in Hf].
Qed.

Lemma option_argument_used e next s :
  option_argument e next = Some (s, true) -> e = None /\ next = Some (Word s).
Proof.
  unfold option_argument. destruct e; [congruence|].
  destruct next as [[|w]|]; [congruence| |congruence].
  intros [= ->]. done.
Qed.

Lemma option_argument_explicit s next :
  option_argument (Some s) next = Some (s, false).
Proof. reflexivity. Qed.

Lemma get_value_may_store ty ch s v :
  get_value ty ch s = Some v -> may_store (Store ty ch) v.
Proof.
  unfold get_value, may_store. destruct ty.
  - destruct ch as [cs|].
    + case_bool_decide; [|congruence]. intros [= <-]. eauto.
    + intros [= <-]. eauto.
  - destruct (int_of_str s) as [z|] eqn:Hz; [|congruence].
    destruct ch; [congruence|]. intros [= <-]. eauto.
Qed.

(** What a successful option step did. *)
Lemma consume_optional_Took spec f e next st st' used :
  consume_optional spec f e next st = Took st' used ->
  exists a v l,
    find_action spec f = Some a
    /\ may_store (action a) v
    /\ (used = true -> e = None /\ exists w, next = Some (Word w))
    /\ loaded_by load_module l
    /\ st' = {| ns := <[dest a := v]> (ns st); extras := extras st;
                loaded := loaded st ++ l |}.
Proof.
  unfold consume_optional.
  destruct (find_action spec f) as [a|] eqn:Hfind; [|congruence].
  destruct (action a) as [ty ch| |base| |] eqn:Hact.
  - destruct (option_argument e next) as [[s u]|] eqn:Harg; [|congruence].
    destruct (get_value ty ch s) as [v|] eqn:Hv; [|congruence].
    intros [= <- <-]. exists a, v, []. rewrite app_nil_r, Hact.
    split_and!; [done | by eapply get_value_may_store | | by intros ? ? ?%elem_of_nil | done].
    intros ->. apply option_argument_used in Harg as [-> ->]. eauto.
  - destruct e; [congruence|]. intros [= <- <-].
    exists a, (VBool true), []. rewrite app_nil_r, Hact.
    split_and!; [done | done | congruence | by intros ? ? ?%elem_of_nil | done].
  - destruct (option_argument e next) as [[s u]|] eqn:Harg; [|congruence].
    destruct (load_module s) as [c|] eqn:Hc; [|congruence].
    destruct (issubclass c base) eqn:Hsub; [|congruence].
    intros [= <- <-]. exists a, (VClass c), [(s, c)]. rewrite Hact.
    split_and!; [done | cbn; eauto | | | done].
    + intros ->. apply option_argument_used in Harg as [-> ->]. eauto.
    + intros s' c' [= -> ->]%list_elem_of_singleton. done.
  - destruct e; congruence.
  - destruct e; congruence.
Qed.

(** Induction along the loop of a parser without subcommands. *)
Lemma parse_loop_options_ind (p : Parser)
    (P : list Arg -> PState -> Outcome PState -> Prop) :
  subparsers p = None ->
  (forall st, P [] st (Parsed st)) ->
  (forall w rest st,
      P rest (add_extra (Word w) st) (parse_loop p rest (add_extra (Word w) st)) ->
      P (Word w :: rest) st (parse_loop p rest (add_extra (Word w) st))) ->
  (forall f e rest st,
      consume_optional (arguments p) f e (head rest) st = Unknown ->
      P rest (add_extra (Opt f e) st) (parse_loop p rest (add_extra (Opt f e) st)) ->
      P (Opt f e :: rest) st (parse_loop p rest (add_extra (Opt f e) st))) ->
  (forall f e rest st x,
      consume_optional (arguments p) f e (head rest) st = Stop x ->
      P (Opt f e :: rest) st (Exit x)) ->
  (forall f e rest st st',
      consume_optional (arguments p) f e (head rest) st = Took st' false ->
      P rest st' (parse_loop p rest st') ->
      P (Opt f e :: rest) st (parse_loop p rest st')) ->
  (forall f w rest st st',
      consume_optional (arguments p) f None (Some (Word w)) st = Took st' true ->
      P rest st' (parse_loop p rest st') ->
      P (Opt f None :: Word w :: rest) st (parse_loop p rest st')) ->
  forall args st, P args st (parse_loop p args st).
Proof.
  intros Hp Hnil Hword Hunk Hstop Htook Htook2 args.
  assert (H : forall n args, length args <= n -> forall st, P args st (parse_loop p args st)).
  { clear args. induction n as [|n IH]; intros args Hlen st.
    - destruct args; [|cbn in Hlen; lia]. cbn. rewrite Hp. apply Hnil.
    - destruct args as [|[f e|w] rest]; cbn [parse_loop].
      + rewrite Hp. apply Hnil.
      + cbn in Hlen.
        destruct (consume_optional (arguments p) f e (head rest) st)
          as [|st' [|]|x] eqn:Hc.
        * apply Hunk; [done|]. apply IH. lia.
        * destruct (consume_optional_Took _ _ _ _ _ _ _ Hc)
            as (a & v & l & _ & _ & Hused & _).
          destruct (Hused eq_refl) as (-> & w & Hhead).
          destruct rest as [|x rest']; [discriminate|].
          cbn in Hhead. injection Hhead as ->.
          apply Htook2; [done|]. apply IH. cbn in Hlen. lia.
        * apply Htook; [done|]. apply IH. lia.
        * by apply Hstop.
      + rewrite Hp. apply Hword. apply IH. cbn in Hlen. lia. }
  intros st. by apply (H (length args)).
Qed.

(** An invariant of the parser state that every stored value keeps is
    kept by the whole loop. *)
Lemma parse_loop_invariant (p : Parser) (I : PState -> Prop) :
  subparsers p = None ->
  (forall st x, I st -> I (add_extra x st)) ->
  (forall st a v l,
      a ∈ arguments p -> may_store (action a) v -> loaded_by load_module l -> I st ->
      I {| ns := <[dest a := v]> (ns st); extras := extras st; loaded := loaded st ++ l |}) ->
  forall args st st', parse_loop p args st = Parsed st' -> I st -> I st'.
Proof.
  intros Hp Hextra Hstore args st.
  apply (parse_loop_options_ind p
           (fun args st o => forall st', o = Parsed st' -> I st -> I st') Hp).
  - intros st0 st' [= <-]. done.
  - intros w rest st0 IH st' Ho Hst. apply IH; [done|]. by apply Hextra.
  - intros f e rest st0 _ IH st' Ho Hst. apply IH; [done|]. by apply Hextra.
  - intros f e rest st0 x _ st'. congruence.
  - intros f e rest st0 st1 Hc IH st' Ho Hst. apply IH; [done|].
    apply consume_optional_Took in Hc as (a & v & l & Hf & Hv & _ & Hl & ->).
    apply find_action_Some in Hf as [Ha _]. by apply Hstore.
  - intros f w rest st0 st1 Hc IH st' Ho Hst. apply IH; [done|].
    apply consume_optional_Took in Hc as (a & v & l & Hf & Hv & _ & Hl & ->).
    apply find_action_Some in Hf as [Ha _]. by apply Hstore.
Qed.

Lemma typed_by_insert spec n a v :
  a ∈ spec -> may_store (action a) v -> typed_by spec n ->
  typed_by spec (<[dest a := v]> n).
Proof.
  intros Ha Hv Hn d v'. rewrite lookup_insert. case_decide as Hd.
  - intros [= <-]. exists a. eauto.
  - apply Hn.
Qed.

Lemma complete_for_insert spec n d v :
  complete_for spec n -> complete_for spec (<[d := v]> n).
Proof.
  intros Hn a Ha Hdef. rewrite lookup_insert. case_decide; [eauto | by apply Hn].
Qed.

Lemma parse_loop_typed (p : Parser) args st st' :
  subparsers p = None ->
  parse_loop p args st = Parsed st' ->
  typed_by (arguments p) (ns st) -> typed_by (arguments p) (ns st').
Proof.
  intros Hp. apply (parse_loop_invariant p (fun st => typed_by (arguments p) (ns st)) Hp).
  - done.
  - intros st0 a v l Ha Hv _ Hst. cbn. by apply typed_by_insert.
Qed.

Lemma parse_loop_complete (p : Parser) spec args st st' :
  subparsers p = None ->
  parse_loop p args st = Parsed st' ->
  complete_for spec (ns st) -> complete_for spec (ns st').
Proof.
  intros Hp. apply (parse_loop_invariant p (fun st => complete_for spec (ns st)) Hp).
  - done.
  - intros st0 a v l _ _ _ Hst. cbn. by apply complete_for_insert.
Qed.

Lemma parse_loop_loaded (p : Parser) args st st' :
  subparsers p = None ->
  parse_loop p args st = Parsed st' ->
  loaded_by load_module (loaded st) -> loaded_by load_module (loaded st').
Proof.
  intros Hp. apply (parse_loop_invariant p (fun st => loaded_by load_module (loaded st)) Hp).
  - done.
  - intros st0 a v l _ _ Hl Hst s c. cbn. rewrite elem_of_app. intros [?|?]; eauto.
Qed.

(** The defaults. *)
Lemma install_defaults_lookup spec : forall n d v,
  install_defaults spec n !! d = Some v ->
  n !! d = Some v \/ exists a, a ∈ spec /\ dest a = d /\ default a = Some v.
Proof.
  induction spec as [|a spec IH]; intros n d v; cbn; [eauto|].
  intros H. apply IH in H as [H | (a' & Ha' & Hd & Hv)].
  - destruct (default a) as [v0|] eqn:Hdef; [|eauto].
    destruct (n !! dest a) eqn:Hn; [eauto|].
    rewrite lookup_insert in H. case_decide as Hd; [|eauto].
    injection H as <-. right. exists a. split_and!; [left | done | done].
  - right. exists a'. split_and!; [by right | done | done].
Qed.

Lemma install_defaults_keeps spec : forall n d,
  is_Some (n !! d) -> is_Some (install_defaults spec n !! d).
Proof.
  induction spec as [|a spec IH]; intros n d Hd; cbn; [done|].
  apply IH. destruct (default a); [|done]. destruct (n !! dest a); [done|].
  rewrite lookup_insert. case_decide; [eauto | done].
Qed.

Lemma install_defaults_complete spec : forall n,
  complete_for spec (install_defaults spec n).
Proof.
  induction spec as [|a spec IH]; intros n a' Ha' Hdef.
  - by apply elem_of_nil in Ha'.
  - cbn. apply elem_of_cons in Ha' as [-> | Ha']; [|by apply IH].
    apply install_defaults_keeps.
    destruct (default a) as [v|]; [|done].
    destruct (n !! dest a) eqn:Hn; [by rewrite Hn|].
    rewrite lookup_insert_eq. eauto.
Qed.

Lemma install_defaults_typed spec :
  typed_by spec (install_defaults spec ∅).
Proof.
  intros d v H. apply install_defaults_lookup in H as [H | (a & Ha & Hd & Hv)].
  - by rewrite lookup_empty in H.
  - exists a. eauto.
Qed.

(** An attribute that no occurring option writes keeps its value. *)
Lemma parse_loop_frame (p : Parser) (d : string) args st :
  subparsers p = None ->
  forall st',
  parse_loop p args st = Parsed st' ->
  (forall f e a, Opt f e ∈ args -> find_action (arguments p) f = Some a -> dest a <> d) ->
  ns st' !! d = ns st !! d.
Proof.
  intros Hp.
  apply (parse_loop_options_ind p
    (fun args st o => forall st', o = Parsed st' ->
       (forall f e a, Opt f e ∈ args -> find_action (arguments p) f = Some a -> dest a <> d) ->
       ns st' !! d = ns st !! d) Hp).
  - intros st0 st' [= <-]. done.
  - intros w rest st0 IH st' Ho Hno. rewrite (IH st' Ho); [done|].
    intros f e a Hin. apply (Hno f e a). by right.
  - intros f e rest st0 _ IH st' Ho Hno. rewrite (IH st' Ho); [done|].
    intros f' e' a Hin. apply (Hno f' e' a). by right.
  - intros f e rest st0 x _ st'. congruence.
  - intros f e rest st0 st1 Hc IH st' Ho Hno.
    rewrite (IH st' Ho); [|intros f' e' a Hin; apply (Hno f' e' a); by right].
    apply consume_optional_Took in Hc as (a & v & l & Hf & _ & _ & _ & ->). cbn.
    apply lookup_insert_ne. eapply Hno; [by left|done].
  - intros f w rest st0 st1 Hc IH st' Ho Hno.
    rewrite (IH st' Ho); [|intros f' e' a Hin; apply (Hno f' e' a); right; by right].
    apply consume_optional_Took in Hc as (a & v & l & Hf & _ & _ & _ & ->). cbn.
    apply lookup_insert_ne. eapply Hno; [by left|done].
Qed.

Lemma consume_optional_Store spec f a ty ch e next st :
  find_action spec f = Some a ->
  action a = Store ty ch ->
  consume_optional spec f e next st =
    match option_argument e next with
    | None => Stop usage_error
    | Some (s, used) =>
        match get_value ty ch s with
        | None => Stop usage_error
        | Some v => Took {| ns := <[dest a := v]> (ns st);
                            extras := extras st; loaded := loaded st |} used
        end
    end.
Proof. intros Hf Ha. unfold consume_optional. rewrite Hf, Ha. reflexivity. Qed.

Lemma get_value_TStr ch s v :
  get_value TStr ch s = Some v ->
  v = VStr s /\ match ch with Some cs => s ∈ cs | None => True end.
Proof.
  unfold get_value. destruct ch as [cs|].
  - case_bool_decide; [|congruence]. intros [= <-]. done.
  - intros [= <-]. done.
Qed.

Lemma supplied_acc f args : forall acc,
  supplied f args acc =
    match supplied f args None with
    | Some s => Some s
    | None => acc
    end.
Proof.
  induction args as [|[g e|w] rest IH]; intros acc; cbn; [done| |by apply IH].
  destruct (String.eqb g f); [|by apply IH].
  destruct e as [s|].
  - rewrite (IH (Some s)). by destruct (supplied f rest None).
  - destruct rest as [|[g' e'|w] rest'].
    + apply IH.
    + apply IH.
    + cbn in IH |- *. rewrite (IH (Some w)). by destruct (supplied f rest' None).
Qed.

(** The attribute of a string option holds the argument of its last
    occurrence, and what it held before when the option does not
    occur. *)
Lemma parse_loop_supplied (p : Parser) f a ch args st :
  subparsers p = None ->
  find_action (arguments p) f = Some a ->
  action a = Store TStr ch ->
  (forall g a', find_action (arguments p) g = Some a' -> dest a' = dest a -> g = f) ->
  forall st',
  parse_loop p args st = Parsed st' ->
  ns st' !! dest a =
    match supplied f args None with
    | Some s => Some (VStr s)
    | None => ns st !! dest a
    end.
Proof.
  intros Hp Hf Ha Honly.
  assert (Hstep : forall g e next st0 st1 used,
    consume_optional (arguments p) g e next st0 = Took st1 used ->
    (g = f /\ exists s, option_argument e next = Some (s, used)
                       /\ ns st1 !! dest a = Some (VStr s))
    \/ (g <> f /\ ns st1 !! dest a = ns st0 !! dest a)).
  { intros g e next st0 st1 used Hc. destruct (decide (g = f)) as [->|Hne].
    - left. split; [done|]. rewrite (consume_optional_Store _ _ _ _ _ _ _ _ Hf Ha) in Hc.
      destruct (option_argument e next) as [[s u]|]; [|congruence].
      destruct (get_value TStr ch s) as [v|] eqn:Hv; [|congruence].
      injection Hc as <- <-. apply get_value_TStr in Hv as [-> _].
      exists s. split; [done|]. cbn. by rewrite lookup_insert_eq.
    - right. split; [done|].
      apply consume_optional_Took in Hc as (a' & v & l & Hf' & _ & _ & _ & ->). cbn.
      apply lookup_insert_ne. intros Hd. apply Hne. by eapply Honly. }
  apply (parse_loop_options_ind p
    (fun args st o => forall st', o = Parsed st' ->
       ns st' !! dest a =
         match supplied f args None with
         | Some s => Some (VStr s)
         | None => ns st !! dest a
         end) Hp).
  - intros st0 st' [= <-]. done.
  - intros w rest st0 IH st' Ho. cbn. by rewrite (IH st' Ho).
  - intros g e rest st0 Hc IH st' Ho. cbn [supplied].
    assert (g <> f) as Hne.
    { intros ->. unfold consume_optional in Hc. rewrite Hf, Ha in Hc.
      destruct (option_argument e (head rest)) as [[s u]|]; [|congruence].
      destruct (get_value TStr ch s); congruence. }
    apply String.eqb_neq in Hne. rewrite Hne. by rewrite (IH st' Ho).
  - intros g e rest st0 x _ st'. congruence.
  - intros g e rest st0 st1 Hc IH st' Ho. rewrite (IH st' Ho). cbn [supplied].
    destruct (Hstep _ _ _ _ _ _ Hc) as [(-> & s & Harg & Hs) | (Hne & Hs)].
    + rewrite String.eqb_refl. unfold option_argument in Harg.
      destruct e as [s'|]; [|destruct (head rest) as [[|]|]; congruence].
      injection Harg as ->. rewrite (supplied_acc f rest (Some s)).
      destruct (supplied f rest None); [done|]. by rewrite Hs.
    + apply String.eqb_neq in Hne. rewrite Hne. by rewrite Hs.
  - intros g w rest st0 st1 Hc IH st' Ho. rewrite (IH st' Ho). cbn [supplied].
    destruct (Hstep _ _ _ _ _ _ Hc) as [(-> & s & Harg & Hs) | (Hne & Hs)].
    + rewrite String.eqb_refl. cbn in Harg. injection Harg as ->.
      rewrite (supplied_acc f rest (Some s)).
      destruct (supplied f rest None); [done|]. by rewrite Hs.
    + apply String.eqb_neq in Hne. rewrite Hne. by rewrite Hs.
Qed.

(** An occurrence at which the option step stops makes the parse stop,
    wherever it stands. *)
Lemma parse_loop_stops (p : Parser) f e tail :
  subparsers p = None ->
  (forall st, exists x, consume_optional (arguments p) f e (head tail) st = Stop x) ->
  forall pre st, exists x, parse_loop p (pre ++ Opt f e :: tail) st = Exit x.
Proof.
  intros Hp Hstop pre st.
  assert (H : forall args st o,
    o = parse_loop p args st ->
    forall pre, args = pre ++ Opt f e :: tail -> exists x, o = Exit x);
    [|by eapply H].
  clear pre st. intros args st o ->.
  apply (parse_loop_options_ind p
    (fun args st o => forall pre, args = pre ++ Opt f e :: tail -> exists x, o = Exit x) Hp).
  - intros st0 pre Hpre. by destruct pre.
  - intros w rest st0 IH [|y pre] Hpre; simplify_eq/=. by eapply IH.
  - intros g e' rest st0 Hc IH [|y pre] Hpre; simplify_eq/=.
    + destruct (Hstop st0) as [x Hx]. congruence.
    + by eapply IH.
  - intros g e' rest st0 x _ pre _. eauto.
  - intros g e' rest st0 st1 Hc IH [|y pre] Hpre; simplify_eq/=.
    + destruct (Hstop st0) as [x Hx]. congruence.
    + by eapply IH.
  - intros g w rest st0 st1 Hc IH [|y [|z pre]] Hpre; simplify_eq/=.
    + destruct (Hstop st0) as [x Hx]. cbn in Hx. congruence.
    + by eapply IH.
Qed.

(** Induction along the loop of a parser with a required subcommand:
    the loop ends at the first plain word no option took. *)
Lemma parse_loop_command_ind (p : Parser) d table
    (P : list Arg -> PState -> Outcome PState -> Prop) :
  subparsers p = Some (d, true, table) ->
  (forall st, P [] st (Exit usage_error)) ->
  (forall w rest st,
      P (Word w :: rest) st
        match lookup_parser w table with
        | None => Exit usage_error
        | Some sub =>
            match sub rest with
            | Parsed s =>
                Parsed {| ns := ns s ∪ <[d := VStr w]> (ns st);
                          extras := extras st ++ extras s;
                          loaded := loaded st ++ loaded s |}
            | Exit e => Exit e
            end
        end) ->
  (forall f e rest st,
      consume_optional (arguments p) f e (head rest) st = Unknown ->
      P rest (add_extra (Opt f e) st) (parse_loop p rest (add_extra (Opt f e) st)) ->
      P (Opt f e :: rest) st (parse_loop p rest (add_extra (Opt f e) st))) ->
  (forall f e rest st x,
      consume_optional (arguments p) f e (head rest) st = Stop x ->
      P (Opt f e :: rest) st (Exit x)) ->
  (forall f e rest st st',
      consume_optional (arguments p) f e (head rest) st = Took st' false ->
      P rest st' (parse_loop p rest st') ->
      P (Opt f e :: rest) st (parse_loop p rest st')) ->
  (forall f w rest st st',
      consume_optional (arguments p) f None (Some (Word w)) st = Took st' true ->
      P rest st' (parse_loop p rest st') ->
      P (Opt f None :: Word w :: rest) st (parse_loop p rest st')) ->
  forall args st, P args st (parse_loop p args st).
Proof.
  intros Hp Hnil Hword Hunk Hstop Htook Htook2 args.
  assert (H : forall n args, length args <= n -> forall st, P args st (parse_loop p args st)).
  { clear args. induction n as [|n IH]; intros args Hlen st.
    - destruct args; [|cbn in Hlen; lia]. cbn. rewrite Hp. apply Hnil.
    - destruct args as [|[f e|w] rest]; cbn [parse_loop].
      + rewrite Hp. apply Hnil.
      + cbn in Hlen.
        destruct (consume_optional (arguments p) f e (head rest) st)
          as [|st' [|]|x] eqn:Hc.
        * apply Hunk; [done|]. apply IH. lia.
        * destruct (consume_optional_Took _ _ _ _ _ _ _ Hc)
            as (a & v & l & _ & _ & Hused & _).
          destruct (Hused eq_refl) as (-> & w & Hhead).
          destruct rest as [|x rest']; [discriminate|].
          cbn in Hhead. injection Hhead as ->.
          apply Htook2; [done|]. apply IH. cbn in Hlen. lia.
        * apply Htook; [done|]. apply IH. lia.
        * by apply Hstop.
      + rewrite Hp. apply Hword. }
  intros st. by apply (H (length args)).
Qed.

(** With distinct destinations, an attribute has one argument and that
    argument's option strings are its only writers. *)
Lemma dest_unique spec a a' :
  NoDup (dest <$> spec) -> a ∈ spec -> a' ∈ spec -> dest a = dest a' -> a = a'.
Proof.
  induction spec as [|x spec IH]; intros Hnd Ha Ha' Hd; [by apply elem_of_nil in Ha|].
  cbn in Hnd. apply NoDup_cons in Hnd as [Hx Hnd].
  apply elem_of_cons in Ha as [->|Ha]; apply elem_of_cons in Ha' as [->|Ha'].
  - done.
  - exfalso. apply Hx. rewrite Hd. by apply list_elem_of_fmap_2.
  - exfalso. apply Hx. rewrite <- Hd. by apply list_elem_of_fmap_2.
  - by apply IH.
Qed.

Lemma typed_lookup spec n a :
  NoDup (dest <$> spec) -> typed_by spec n -> complete_for spec n ->
  a ∈ spec -> default a <> None ->
  exists v, n !! dest a = Some v /\ (default a = Some v \/ may_store (action a) v).
Proof.
  intros Hnd Ht Hc Ha Hdef. destruct (Hc a Ha Hdef) as [v Hv].
  exists v. split; [done|].
  destruct (Ht _ _ Hv) as (a' & Ha' & Hd & Hstore).
  by rewrite <- (dest_unique spec a' a Hnd Ha' Ha Hd).
Qed.

Lemma parse_loop_omitted (p : Parser) a f args st st' :
  subparsers p = None ->
  NoDup (dest <$> arguments p) ->
  a ∈ arguments p -> option_strings a = [f] ->
  omitted f args ->
  parse_loop p args st = Parsed st' ->
  ns st' !! dest a = ns st !! dest a.
Proof.
  intros Hp Hnd Ha Hf Hom Hparse.
  apply (parse_loop_frame p (dest a) args st Hp st' Hparse).
  intros g e a' Hin Hfind Hd.
  apply find_action_Some in Hfind as [Ha' Hg].
  rewrite (dest_unique _ a' a Hnd Ha' Ha Hd), Hf in Hg.
  apply list_elem_of_singleton in Hg as ->. by apply (Hom e).
Qed.

Lemma only_writer spec a f :
  NoDup (dest <$> spec) -> a ∈ spec -> option_strings a = [f] ->
  forall g a', find_action spec g = Some a' -> dest a' = dest a -> g = f.
Proof.
  intros Hnd Ha Hf g a' Hfind Hd.
  apply find_action_Some in Hfind as [Ha' Hg].
  rewrite (dest_unique _ a' a Hnd Ha' Ha Hd), Hf in Hg.
  by apply list_elem_of_singleton in Hg.
Qed.

End ArgparseFacts.

(** ** The server subcommand's parser *)

Section ServerParser.

Variable ssh_mitm_version : string.
Variable int_of_str : string -> option Z.
Variable load_module : string -> option PyClass.
Variable issubclass : PyClass -> PyClass -> bool.

Local Abbreviation server := (parser_mitm_server ssh_mitm_version).
Local Abbreviation parse_server :=
  (parse_known_args int_of_str load_module issubclass (parser_mitm_server ssh_mitm_version)).
Local Abbreviation typed := (typed_by int_of_str load_module issubclass).

Lemma server_dests_NoDup : NoDup (dest <$> arguments server).
Proof. apply (bool_decide_unpack _). vm_compute. reflexivity. Qed.

Lemma server_parsed args st :
  parse_server args = Parsed st ->
  typed (arguments server) (ns st)
  /\ complete_for (arguments server) (ns st)
  /\ loaded_by load_module (loaded st).
Proof.
  unfold parse_known_args. intros H. split_and!.
  - apply (parse_loop_typed int_of_str load_module issubclass server args _ st eq_refl H).
    exact (install_defaults_typed int_of_str load_module issubclass (arguments server)).
  - apply (parse_loop_complete int_of_str load_module issubclass server _ args _ st eq_refl H).
    exact (install_defaults_complete (arguments server) ∅).
  - apply (parse_loop_loaded int_of_str load_module issubclass server args _ st eq_refl H).
    by intros ? ? ?%elem_of_nil.
Qed.

(** Every declared attribute of a parsed server namespace holds its
    default or a value its action stored. *)
Lemma server_attribute args st a :
  parse_server args = Parsed st ->
  a ∈ arguments server -> default a <> None ->
  exists v, ns st !! dest a = Some v
    /\ (default a = Some v
        \/ may_store int_of_str load_module issubclass (action a) v).
Proof.
  intros H Ha Hdef. destruct (server_parsed args st H) as (Ht & Hc & _).
  by apply (typed_lookup int_of_str load_module issubclass (arguments server)
              (ns st) a server_dests_NoDup).
Qed.

(** Looking an attribute up by the option that writes it. *)
Lemma server_option args st f a d dv act :
  parse_server args = Parsed st ->
  find_action (arguments server) f = Some a ->
  dest a = d -> default a = Some dv -> action a = act ->
  exists v, ns st !! d = Some v
    /\ (v = dv \/ may_store int_of_str load_module issubclass act v).
Proof.
  intros H Hf <- Hdv <-. apply find_action_Some in Hf as [Ha _].
  destruct (server_attribute args st a H Ha) as (v & Hv & Hs); [congruence|].
  exists v. split; [done|]. destruct Hs as [Hs|Hs]; [left; congruence | by right].
Qed.

(** The attributes of a parsed server namespace are the declared ones. *)
Lemma server_namespace_dom args st d :
  parse_server args = Parsed st ->
  is_Some (ns st !! d) -> d ∈ dest <$> init_server_parser ssh_mitm_version.
Proof.
  intros H [v Hv]. destruct (server_parsed args st H) as (Ht & _ & _).
  destruct (Ht d v Hv) as (a & Ha & <- & Hstore).
  apply elem_of_cons in Ha as [-> | Ha].
  - destruct Hstore as [Hd | []]. discriminate.
  - by apply list_elem_of_fmap_2.
Qed.

Lemma server_namespace_complete args st d :
  parse_server args = Parsed st ->
  d ∈ dest <$> init_server_parser ssh_mitm_version -> is_Some (ns st !! d).
Proof.
  intros H Hd. destruct (server_parsed args st H) as (_ & Hc & _).
  apply list_elem_of_fmap in Hd as (a & -> & Ha).
  apply Hc; [by right|].
  unfold init_server_parser in Ha.
  repeat (apply elem_of_cons in Ha as [-> | Ha]; [done|]).
  by apply elem_of_nil in Ha.
Qed.

(** An option that is not given leaves its default. *)
Lemma server_omitted args st f a d dv :
  parse_server args = Parsed st ->
  find_action (arguments server) f = Some a ->
  option_strings a = [f] -> dest a = d ->
  initial_namespace server !! d = Some dv ->
  omitted f args ->
  ns st !! d = Some dv.
Proof.
  intros H Hf Hopt <- <- Hom. apply find_action_Some in Hf as [Ha _].
  unfold parse_known_args in H.
  by rewrite (parse_loop_omitted int_of_str load_module issubclass server a f args _ st
                eq_refl server_dests_NoDup Ha Hopt Hom H).
Qed.

(** A string option holds what its last occurrence supplied. *)
Lemma server_supplied args st f a ch d dv :
  parse_server args = Parsed st ->
  find_action (arguments server) f = Some a ->
  option_strings a = [f] -> action a = Store TStr ch -> dest a = d ->
  initial_namespace server !! d = Some dv ->
  ns st !! d =
    Some match supplied f args None with
         | Some s => VStr s
         | None => dv
         end.
Proof.
  intros H Hf Hopt Hact <- Hdv. unfold parse_known_args in H.
  rewrite (parse_loop_supplied int_of_str load_module issubclass server f a ch args _
             eq_refl Hf Hact (only_writer (arguments server) a f server_dests_NoDup
                                (proj1 (find_action_Some _ _ _ Hf)) Hopt) st H).
  destruct (supplied f args None); [done|]. exact Hdv.
Qed.

Lemma server_host_key_algorithm args st :
  parse_server args = Parsed st ->
  exists s, s ∈ ["dss"; "rsa"; "ecdsa"; "ed25519"]
    /\ ns st !! "host_key_algorithm" = Some (VStr s)
    /\ s = match supplied "--host-key-algorithm" args None with
           | Some s' => s'
           | None => "rsa"
           end.
Proof.
  intros H.
  destruct (server_option args st "--host-key-algorithm" _ "host_key_algorithm"
              (VStr "rsa") (Store TStr (Some ["dss"; "rsa"; "ecdsa"; "ed25519"]))
              H eq_refl eq_refl eq_refl eq_refl) as (v & Hv & Hs).
  pose proof (server_supplied args st "--host-key-algorithm" _
                (Some ["dss"; "rsa"; "ecdsa"; "ed25519"]) "host_key_algorithm" (VStr "rsa")
                H eq_refl eq_refl eq_refl eq_refl eq_refl) as Hsup.
  rewrite Hv in Hsup.
  assert (exists s, s ∈ ["dss"; "rsa"; "ecdsa"; "ed25519"] /\ v = VStr s) as (s & Hs' & ->).
  { destruct Hs as [-> | (s & Hs & ->)]; [exists "rsa"; split; [set_solver|done] | eauto]. }
  exists s. split_and!; [done | done |].
  destruct (supplied "--host-key-algorithm" args None); congruence.
Qed.

Lemma server_banner_name args st :
  parse_server args = Parsed st ->
  ns st !! "banner_name" =
    Some (VStr match supplied "--banner-name" args None with
               | Some s => s
               | None => "SSHMITM_" +:+ ssh_mitm_version
               end).
Proof.
  intros H.
  rewrite (server_supplied args st "--banner-name" _ None "banner_name"
             (VStr ("SSHMITM_" +:+ ssh_mitm_version))
             H eq_refl eq_refl eq_refl eq_refl eq_refl).
  by destruct (supplied "--banner-name" args None).
Qed.

(** A class selection is the declared default or a class the loader
    returned for a name given on the command line, checked against the
    base class. *)
Lemma server_module args st f a d c0 base :
  parse_server args = Parsed st ->
  find_action (arguments server) f = Some a ->
  dest a = d -> default a = Some (VClass c0) -> action a = StoreModule base ->
  exists c, ns st !! d = Some (VClass c)
    /\ (c = c0 \/ exists s, load_module s = Some c /\ issubclass c base = true).
Proof.
  intros H Hf Hd Hdef Hact.
  destruct (server_option args st f a d (VClass c0) (StoreModule base) H Hf Hd Hdef Hact)
    as (v & Hv & [-> | (s & c & Hc & Hsub & ->)]).
  - exists c0. eauto.
  - exists c. split; [done|]. right. eauto.
Qed.

End ServerParser.

(** ** [run_server] *)

Section RunServer.

Variable ssh_mitm_version : string.

Local Abbreviation run_server := (run_server ssh_mitm_version).

Lemma getattr_attr (n : Namespace) name :
  is_Some (n !! name) -> n !! name = Some (attr n name).
Proof. intros [v Hv]. unfold attr. by rewrite Hv. Qed.

(** On a namespace that has the server's attributes, [run_server] runs
    to the end: it prints the header, constructs one server from the
    attributes, and starts it; on the way it sets the authenticator
    class's break-in attribute when asked to, and the transport's
    client id to the banner. *)
Lemma run_server_returns (args : Namespace) (p : Process) :
  (forall d, d ∈ dest <$> init_server_parser ssh_mitm_version -> is_Some (args !! d)) ->
  (truthy (attr args "request_agent_breakin") = true ->
   exists c, attr args "authenticator" = VClass c) ->
  exists proxy,
    proxy = {| listen_port := attr args "listen_port";
               key_file := attr args "host_key";
               key_algorithm := attr args "host_key_algorithm";
               key_length := attr args "host_key_length";
               ssh_interface := attr args "ssh_interface";
               scp_interface := attr args "scp_interface";
               sftp_interface := attr args "sftp_interface";
               sftp_handler := attr args "sftp_handler";
               server_tunnel_interface := attr args "server_tunnel_interface";
               client_tunnel_interface := attr args "client_tunnel_interface";
               authentication_interface := attr args "auth_interface";
               authenticator := attr args "authenticator";
               transparent := attr args "transparent";
               args := args |}
    /\ run_server args p =
       (inr tt,
        {| Transport_run := Transport_run p;
           Transport_CLIENT_ID :=
             if is_not_None (attr args "banner_name")
             then attr args "banner_name" else Transport_CLIENT_ID p;
           REQUEST_AGENT_BREAKIN :=
             if truthy (attr args "request_agent_breakin")
             then match attr args "authenticator" with
                  | VClass c => <[c := VBool true]> (REQUEST_AGENT_BREAKIN p)
                  | _ => REQUEST_AGENT_BREAKIN p
                  end
             else REQUEST_AGENT_BREAKIN p;
           root_level := root_level p;
           root_handlers := root_handlers p;
           paramiko_level := paramiko_level p;
           trace := trace p ++ [
             ConsoleRule (Some "[bold blue]SSH-MITM - ssh audits made simple");
             ConsolePrint ("[bold]Version:[/bold] " +:+ ssh_mitm_version);
             ConsolePrint "[bold]Documentation:[/bold] https://docs.ssh-mitm.at";
             ConsolePrint "[bold]Issues:[/bold] https://github.com/ssh-mitm/ssh-mitm/issues";
             ConsoleRule None;
             NewProxyServer proxy;
             ProxyStart proxy
               {| at_Transport_run := Transport_run p;
                  at_Transport_CLIENT_ID :=
                    if is_not_None (attr args "banner_name")
                    then attr args "banner_name" else Transport_CLIENT_ID p;
                  at_REQUEST_AGENT_BREAKIN :=
                    if truthy (attr args "request_agent_breakin")
                    then match attr args "authenticator" with
                         | VClass c => <[c := VBool true]> (REQUEST_AGENT_BREAKIN p)
                         | _ => REQUEST_AGENT_BREAKIN p
                         end
                    else REQUEST_AGENT_BREAKIN p |} ] |}).
Proof.
  intros Hall Hauth. eexists. split; [reflexivity|].
  assert (Hget : forall d, bool_decide (d ∈ dest <$> init_server_parser ssh_mitm_version) = true ->
                           args !! d = Some (attr args d)).
  { intros d Hd. apply getattr_attr, Hall. by apply bool_decide_eq_true in Hd. }
  pose proof (Hget "request_agent_breakin" ltac:(vm_compute; reflexivity)) as H0.
  set (v0 := attr args "request_agent_breakin") in *. clearbody v0.
  pose proof (Hget "authenticator" ltac:(vm_compute; reflexivity)) as H1.
  set (v1 := attr args "authenticator") in *. clearbody v1.
  pose proof (Hget "listen_port" ltac:(vm_compute; reflexivity)) as H2.
  set (v2 := attr args "listen_port") in *. clearbody v2.
  pose proof (Hget "host_key" ltac:(vm_compute; reflexivity)) as H3.
  set (v3 := attr args "host_key") in *. clearbody v3.
  pose proof (Hget "host_key_algorithm" ltac:(vm_compute; reflexivity)) as H4.
  set (v4 := attr args "host_key_algorithm") in *. clearbody v4.
  pose proof (Hget "host_key_length" ltac:(vm_compute; reflexivity)) as H5.
  set (v5 := attr args "host_key_length") in *. clearbody v5.
  pose proof (Hget "ssh_interface" ltac:(vm_compute; reflexivity)) as H6.
  set (v6 := attr args "ssh_interface") in *. clearbody v6.
  pose proof (Hget "scp_interface" ltac:(vm_compute; reflexivity)) as H7.
  set (v7 := attr args "scp_interface") in *. clearbody v7.
  pose proof (Hget "sftp_interface" ltac:(vm_compute; reflexivity)) as H8.
  set (v8 := attr args "sftp_interface") in *. clearbody v8.
  pose proof (Hget "sftp_handler" ltac:(vm_compute; reflexivity)) as H9.
  set (v9 := attr args "sftp_handler") in *. clearbody v9.
  pose proof (Hget "server_tunnel_interface" ltac:(vm_compute; reflexivity)) as H10.
  set (v10 := attr args "server_tunnel_interface") in *. clearbody v10.
  pose proof (Hget "client_tunnel_interface" ltac:(vm_compute; reflexivity)) as H11.
  set (v11 := attr args "client_tunnel_interface") in *. clearbody v11.
  pose proof (Hget "auth_interface" ltac:(vm_compute; reflexivity)) as H12.
  set (v12 := attr args "auth_interface") in *. clearbody v12.
  pose proof (Hget "transparent" ltac:(vm_compute; reflexivity)) as H13.
  set (v13 := attr args "transparent") in *. clearbody v13.
  pose proof (Hget "banner_name" ltac:(vm_compute; reflexivity)) as H14.
  set (v14 := attr args "banner_name") in *. clearbody v14.
  clear Hall Hget. destruct p as [tr cid rab rl rh pl t].
  unfold run_server, getattr.
  rewrite H0, H1, H2, H3, H4, H5, H6, H7, H8, H9, H10, H11, H12, H13, H14.
  cbv beta iota zeta delta
    [bind ret raise emit modify start class_attributes
     set_Transport_CLIENT_ID set_REQUEST_AGENT_BREAKIN
     Transport_run Transport_CLIENT_ID REQUEST_AGENT_BREAKIN
     root_level root_handlers paramiko_level trace].
  destruct (truthy v0).
  - destruct (Hauth eq_refl) as [c ->].
    destruct (is_not_None v14); cbn; rewrite <- !app_assoc; reflexivity.
  - destruct (is_not_None v14); cbn; rewrite <- !app_assoc; reflexivity.
Qed.









End RunServer.

(** ** [main] *)

Section Main.

Variable ssh_mitm_version : string.
Variable int_of_str : string -> option Z.
Variable load_module : string -> option PyClass.
Variable issubclass : PyClass -> PyClass -> bool.
Variable audit_parser : list Arg -> Outcome PState.

Local Abbreviation top :=
  (main_parser ssh_mitm_version int_of_str load_module issubclass audit_parser).
Local Abbreviation parse_server :=
  (parse_known_args int_of_str load_module issubclass (parser_mitm_server ssh_mitm_version)).
Local Abbreviation consume_top :=
  (consume_optional int_of_str load_module issubclass (arguments top)).

(** The top-level options: what one step can do. *)
Lemma top_consume f e next st st' used :
  consume_top f e next st = Took st' used ->
  loaded st' = loaded st
  /\ extras st' = extras st
  /\ (exists d v, d <> "subparser_name" /\ ns st' = <[d := v]> (ns st))
  /\ (used = true -> f = "--paramiko-log-level")
  /\ (f = "--paramiko-log-level" -> e = None ->
      (exists w, next = Some (Word w)) -> used = true).
Proof.
  unfold consume_optional.
  destruct (find_action (arguments top) f) as [a|] eqn:Hfind; [|congruence].
  apply find_action_Some in Hfind as [Ha Hf].
  repeat (apply elem_of_cons in Ha as [-> | Ha]); [..|by apply elem_of_nil in Ha];
    cbn [action dest option_strings help_argument] in *.
  - destruct e; congruence.
  - destruct e; congruence.
  - destruct e; [congruence|]. intros [= <- <-]. cbn.
    split_and!; [done | done | eexists _, _; split; [|reflexivity]; discriminate | done |].
    intros ->. repeat (apply elem_of_cons in Hf as [Hf|Hf]; [discriminate|]).
    by apply elem_of_nil in Hf.
  - apply list_elem_of_singleton in Hf as ->.
    destruct (option_argument e next) as [[s u]|] eqn:Harg; [|congruence].
    destruct (get_value int_of_str TStr _ s) as [v|]; [|congruence].
    intros [= <- <-]. cbn.
    split_and!; [done | done | eexists _, _; split; [|reflexivity]; discriminate | done |].
    intros _ -> [w ->]. cbn in Harg. congruence.
  - destruct e; [congruence|]. intros [= <- <-]. cbn.
    split_and!; [done | done | eexists _, _; split; [|reflexivity]; discriminate | done |].
    intros ->. repeat (apply elem_of_cons in Hf as [Hf|Hf]; [discriminate|]).
    by apply elem_of_nil in Hf.
Qed.

Lemma top_consume_Unknown f e next st :
  consume_top f e next st = Unknown -> f <> "--paramiko-log-level".
Proof.
  intros H ->.
  rewrite (consume_optional_Store int_of_str load_module issubclass (arguments top)
             "--paramiko-log-level" _ TStr (Some ["warning"; "info"; "debug"])
             e next st eq_refl eq_refl) in H.
  destruct (option_argument e next) as [[s u]|]; [|congruence].
  destruct (get_value int_of_str TStr _ s); congruence.
Qed.

Lemma subcommand_skip f e rest :
  (f = "--paramiko-log-level" -> e = None -> (exists w, head rest = Some (Word w)) -> False) ->
  subcommand (Opt f e :: rest) = subcommand rest.
Proof.
  intros H. cbn. destruct e as [s|]; [done|].
  destruct rest as [|[g e'|w] rest']; [done | done |].
  destruct (String.eqb_spec f "--paramiko-log-level") as [->|]; [|done].
  exfalso. apply H; eauto.
Qed.

Lemma subcommand_arguments_skip f e rest :
  (f = "--paramiko-log-level" -> e = None -> (exists w, head rest = Some (Word w)) -> False) ->
  subcommand_arguments (Opt f e :: rest) = subcommand_arguments rest.
Proof.
  intros H. cbn. destruct e as [s|]; [done|].
  destruct rest as [|[g e'|w] rest']; [done | done |].
  destruct (String.eqb_spec f "--paramiko-log-level") as [->|]; [|done].
  exfalso. apply H; eauto.
Qed.

(** A successful top-level parse: the options before the subcommand
    wrote to the namespace, the subcommand is [server] or [audit], and
    the attributes of its own parser were copied over the top-level
    ones. *)
Lemma top_parse_loop args st0 : forall st',
  parse_loop int_of_str load_module issubclass top args st0 = Parsed st' ->
  exists w s stm,
    subcommand args = Some w
    /\ ((w = "server" /\ parse_server (subcommand_arguments args) = Parsed s)
        \/ (w = "audit" /\ audit_parser (subcommand_arguments args) = Parsed s))
    /\ loaded stm = loaded st0
    /\ (forall d, is_Some (ns st0 !! d) -> is_Some (ns stm !! d))
    /\ st' = {| ns := ns s ∪ <["subparser_name" := VStr w]> (ns stm);
                extras := extras stm ++ extras s;
                loaded := loaded stm ++ loaded s |}.
Proof.
  apply (parse_loop_command_ind int_of_str load_module issubclass top
    "subparser_name"
    [("server", parse_server); ("audit", audit_parser)]
    (fun args st0 o => forall st', o = Parsed st' ->
       exists w s stm,
         subcommand args = Some w
         /\ ((w = "server" /\ parse_server (subcommand_arguments args) = Parsed s)
             \/ (w = "audit" /\ audit_parser (subcommand_arguments args) = Parsed s))
         /\ loaded stm = loaded st0
         /\ (forall d, is_Some (ns st0 !! d) -> is_Some (ns stm !! d))
         /\ st' = {| ns := ns s ∪ <["subparser_name" := VStr w]> (ns stm);
                     extras := extras stm ++ extras s;
                     loaded := loaded stm ++ loaded s |}) eq_refl).
  - intros st st'. congruence.
  - intros w rest st st'. cbn [lookup_parser subcommand subcommand_arguments].
    destruct (String.eqb_spec "server" w) as [<-|Hs].
    + destruct (parse_server rest) as [s|x] eqn:Hsub; [|congruence].
      intros [= <-]. exists "server", s, st.
      split_and!; [done | by left | done | done | done].
    + destruct (String.eqb_spec "audit" w) as [<-|Ha]; [|congruence].
      destruct (audit_parser rest) as [s|x] eqn:Hsub; [|congruence].
      intros [= <-]. exists "audit", s, st.
      split_and!; [done | by right | done | done | done].
  - intros f e rest st Hc IH st' Ho.
    destruct (IH st' Ho) as (w & s & stm & Hsub & Hw & Hl & Hns & ->).
    assert (Hskip : f = "--paramiko-log-level" -> e = None ->
                    (exists w, head rest = Some (Word w)) -> False).
    { intros Hf _ _. by apply top_consume_Unknown in Hc. }
    exists w, s, stm.
    rewrite subcommand_skip, subcommand_arguments_skip by done. done.
  - intros f e rest st x _ st'. congruence.
  - intros f e rest st st1 Hc IH st' Ho.
    destruct (IH st' Ho) as (w & s & stm & Hsub & Hw & Hl & Hns & ->).
    apply top_consume in Hc as (Hl1 & _ & (d & v & _ & Hn1) & _ & Hused).
    assert (Hskip : f = "--paramiko-log-level" -> e = None ->
                    (exists w, head rest = Some (Word w)) -> False).
    { intros Hf He Hnext. by specialize (Hused Hf He Hnext). }
    exists w, s, stm.
    rewrite subcommand_skip, subcommand_arguments_skip by done.
    split_and!; [done | done | congruence | | done].
    intros d' Hd'. apply Hns. rewrite Hn1, lookup_insert. case_decide; eauto.
  - intros f w0 rest st st1 Hc IH st' Ho.
    destruct (IH st' Ho) as (w & s & stm & Hsub & Hw & Hl & Hns & ->).
    apply top_consume in Hc as (Hl1 & _ & (d & v & _ & Hn1) & Hused & _).
    exists w, s, stm. cbn [subcommand subcommand_arguments]. rewrite (Hused eq_refl).
    cbn [String.eqb Ascii.eqb Bool.eqb].
    split_and!; [done | done | congruence | | done].
    intros d' Hd'. apply Hns. rewrite Hn1, lookup_insert. case_decide; eauto.
Qed.

Lemma emit_all_run es : forall p,
  emit_all es p =
    (inr tt,
     {| Transport_run := Transport_run p; Transport_CLIENT_ID := Transport_CLIENT_ID p;
        REQUEST_AGENT_BREAKIN := REQUEST_AGENT_BREAKIN p;
        root_level := root_level p; root_handlers := root_handlers p;
        paramiko_level := paramiko_level p; trace := trace p ++ es |}).
Proof.
  induction es as [|e es IH]; intros [tr cid rab rl rh pl t]; cbn.
  - by rewrite app_nil_r.
  - unfold bind, emit, modify. cbn. rewrite IH. cbn. by rewrite <- app_assoc.
Qed.

Lemma main_parsed argv st :
  parse_args int_of_str load_module issubclass top argv = Parsed st ->
  exists w s n,
    subcommand argv = Some w
    /\ ((w = "server" /\ parse_server (subcommand_arguments argv) = Parsed s)
        \/ (w = "audit" /\ audit_parser (subcommand_arguments argv) = Parsed s))
    /\ extras s = []
    /\ loaded st = loaded s
    /\ ns st = ns s ∪ <["subparser_name" := VStr w]> n
    /\ is_Some (n !! "debug")
    /\ is_Some (n !! "paramiko_log_level")
    /\ is_Some (n !! "disable_workarounds").
Proof.
  unfold parse_args, parse_known_args.
  destruct (parse_loop _ _ _ top argv _) as [st'|x] eqn:Hloop; [|congruence].
  destruct (extras st') as [|y ys] eqn:Hex; [|congruence]. intros [= <-].
  apply top_parse_loop in Hloop as (w & s & stm & Hsub & Hw & Hl & Hns & ->).
  cbn [extras loaded] in Hex, Hl. apply app_eq_nil in Hex as [_ Hex].
  exists w, s, (ns stm). cbn [ns extras loaded]. rewrite Hl.
  split_and!; [done | done | done | done | done | ..];
    apply Hns; cbn [ns]; eexists; reflexivity.
Qed.

(** What [main] has done when it reaches the dispatch on the
    subcommand. *)
Lemma main_dispatch APPIMAGE argv p st :
  parse_args int_of_str load_module issubclass top (appimage_argv APPIMAGE argv) = Parsed st ->
  is_Some (ns st !! "debug") ->
  is_Some (ns st !! "disable_workarounds") ->
  is_Some (ns st !! "paramiko_log_level") ->
  is_Some (ns st !! "subparser_name") ->
  main ssh_mitm_version int_of_str load_module issubclass audit_parser APPIMAGE argv p =
    (if eq_str (attr (ns st) "subparser_name") "server"
     then run_server ssh_mitm_version (ns st)
     else if eq_str (attr (ns st) "subparser_name") "audit"
          then run_audit (ns st)
          else ret tt)
      {| Transport_run :=
           if truthy (attr (ns st) "disable_workarounds")
           then Transport_run p else dropbear_transport_run;
         Transport_CLIENT_ID := Transport_CLIENT_ID p;
         REQUEST_AGENT_BREAKIN := REQUEST_AGENT_BREAKIN p;
         root_level := if truthy (attr (ns st) "debug") then DEBUG else INFO;
         root_handlers := [ {| enable_link_path := attr (ns st) "debug";
                               show_path := attr (ns st) "debug" |} ];
         paramiko_level :=
           if eq_str (attr (ns st) "paramiko_log_level") "debug" then DEBUG
           else if eq_str (attr (ns st) "paramiko_log_level") "info" then INFO
           else WARNING;
         trace := trace p ++ map (fun '(name, cls) => ModuleLoaded name cls) (loaded st) |}.
Proof.
  intros Hparse Hd Hw Hl Hs.
  apply getattr_attr in Hd, Hw, Hl, Hs.
  set (vd := attr (ns st) "debug") in *. clearbody vd.
  set (vw := attr (ns st) "disable_workarounds") in *. clearbody vw.
  set (vl := attr (ns st) "paramiko_log_level") in *. clearbody vl.
  set (vs := attr (ns st) "subparser_name") in *. clearbody vs.
  unfold main. cbv zeta. rewrite Hparse.
  unfold bind at 1. rewrite emit_all_run.
  destruct p as [tr cid rab rl rh pl t].
  unfold getattr. rewrite Hd, Hw, Hl, Hs.
  cbv beta iota zeta delta
    [bind ret raise modify set_root_logger set_Transport_run set_paramiko_level
     Transport_run Transport_CLIENT_ID REQUEST_AGENT_BREAKIN
     root_level root_handlers paramiko_level trace negb].
  destruct (truthy vw), (eq_str vl "debug"), (eq_str vl "info"); reflexivity.
Qed.

Lemma attr_lookup (n : Namespace) name v : n !! name = Some v -> attr n name = v.
Proof. intros H. unfold attr. by rewrite H. Qed.

(** The namespace of a parsed [server] command line: the server
    parser's attributes, with the subcommand's name beside them. *)
Lemma main_parsed_server argv st :
  parse_args int_of_str load_module issubclass top argv = Parsed st ->
  subcommand argv = Some "server" ->
  exists s,
    parse_server (subcommand_arguments argv) = Parsed s
    /\ extras s = []
    /\ loaded st = loaded s
    /\ (forall d, d ∈ dest <$> init_server_parser ssh_mitm_version ->
          ns st !! d = ns s !! d /\ is_Some (ns s !! d))
    /\ ns st !! "subparser_name" = Some (VStr "server")
    /\ is_Some (ns st !! "debug")
    /\ is_Some (ns st !! "paramiko_log_level")
    /\ is_Some (ns st !! "disable_workarounds").
Proof.
  intros Hparse Hsub.
  destruct (main_parsed argv st Hparse)
    as (w & s & n & Hw & Hcase & Hex & Hl & Hns & Hd & Hp & Hdw).
  rewrite Hsub in Hw. injection Hw as <-.
  destruct Hcase as [[_ Hs] | [? _]]; [|discriminate].
  exists s.
  assert (Hin : forall d, is_Some (n !! d) -> is_Some (ns st !! d)).
  { intros d [v Hv]. rewrite Hns.
    destruct (ns s !! d) as [v'|] eqn:Hsd.
    - exists v'. by apply lookup_union_Some_l.
    - rewrite lookup_union_r by done. rewrite lookup_insert. case_decide; eauto. }
  split_and!; [done | done | done | | | by apply Hin | by apply Hin | by apply Hin].
  - intros d Hdin.
    destruct (server_namespace_complete ssh_mitm_version int_of_str load_module issubclass
                _ s d Hs Hdin) as [v Hv].
    split; [|by rewrite Hv]. rewrite Hns, Hv. by apply lookup_union_Some_l.
  - rewrite Hns, lookup_union_r, lookup_insert_eq; [done|].
    destruct (ns s !! "subparser_name") eqn:Hsp; [|done].
    assert (Hdom : "subparser_name" ∈ dest <$> init_server_parser ssh_mitm_version).
    { eapply server_namespace_dom; [exact Hs | by rewrite Hsp]. }
    exfalso. revert Hdom. apply (bool_decide_eq_false_1 _). vm_compute. reflexivity.
Qed.

(** A parsed [server] command line runs to the start of the server:
    what [main] and [run_server] leave behind, in terms of the parsed
    namespace. *)
Lemma main_server APPIMAGE argv p st :
  parse_args int_of_str load_module issubclass top (appimage_argv APPIMAGE argv) = Parsed st ->
  subcommand (appimage_argv APPIMAGE argv) = Some "server" ->
  exists proxy banner,
    proxy = {| listen_port := attr (ns st) "listen_port";
               key_file := attr (ns st) "host_key";
               key_algorithm := attr (ns st) "host_key_algorithm";
               key_length := attr (ns st) "host_key_length";
               ssh_interface := attr (ns st) "ssh_interface";
               scp_interface := attr (ns st) "scp_interface";
               sftp_interface := attr (ns st) "sftp_interface";
               sftp_handler := attr (ns st) "sftp_handler";
               server_tunnel_interface := attr (ns st) "server_tunnel_interface";
               client_tunnel_interface := attr (ns st) "client_tunnel_interface";
               authentication_interface := attr (ns st) "auth_interface";
               authenticator := attr (ns st) "authenticator";
               transparent := attr (ns st) "transparent";
               args := ns st |}
    /\ attr (ns st) "banner_name" = VStr banner
    /\ main ssh_mitm_version int_of_str load_module issubclass audit_parser APPIMAGE argv p =
       (inr tt,
        {| Transport_run :=
             if truthy (attr (ns st) "disable_workarounds")
             then Transport_run p else dropbear_transport_run;
           Transport_CLIENT_ID := VStr banner;
           REQUEST_AGENT_BREAKIN :=
             if truthy (attr (ns st) "request_agent_breakin")
             then match attr (ns st) "authenticator" with
                  | VClass c => <[c := VBool true]> (REQUEST_AGENT_BREAKIN p)
                  | _ => REQUEST_AGENT_BREAKIN p
                  end
             else REQUEST_AGENT_BREAKIN p;
           root_level := if truthy (attr (ns st) "debug") then DEBUG else INFO;
           root_handlers := [ {| enable_link_path := attr (ns st) "debug";
                                 show_path := attr (ns st) "debug" |} ];
           paramiko_level :=
             if eq_str (attr (ns st) "paramiko_log_level") "debug" then DEBUG
             else if eq_str (attr (ns st) "paramiko_log_level") "info" then INFO
             else WARNING;
           trace :=
             (trace p ++ map (fun '(name, cls) => ModuleLoaded name cls) (loaded st)) ++ [
               ConsoleRule (Some "[bold blue]SSH-MITM - ssh audits made simple");
               ConsolePrint ("[bold]Version:[/bold] " +:+ ssh_mitm_version);
               ConsolePrint "[bold]Documentation:[/bold] https://docs.ssh-mitm.at";
               ConsolePrint "[bold]Issues:[/bold] https://github.com/ssh-mitm/ssh-mitm/issues";
               ConsoleRule None;
               NewProxyServer proxy;
               ProxyStart proxy
                 {| at_Transport_run :=
                      if truthy (attr (ns st) "disable_workarounds")
                      then Transport_run p else dropbear_transport_run;
                    at_Transport_CLIENT_ID := VStr banner;
                    at_REQUEST_AGENT_BREAKIN :=
                      if truthy (attr (ns st) "request_agent_breakin")
                      then match attr (ns st) "authenticator" with
                           | VClass c => <[c := VBool true]> (REQUEST_AGENT_BREAKIN p)
                           | _ => REQUEST_AGENT_BREAKIN p
                           end
                      else REQUEST_AGENT_BREAKIN p |} ] |}).
Proof.
  intros Hparse Hsub.
  destruct (main_parsed_server _ st Hparse Hsub)
    as (s & Hs & _ & _ & Hattrs & Hname & Hd & Hl & Hw).
  assert (Hbanner : exists banner, attr (ns st) "banner_name" = VStr banner).
  { eexists. apply attr_lookup.
    destruct (Hattrs "banner_name") as [-> _];
      [apply (bool_decide_eq_true_1 _); vm_compute; reflexivity|].
    apply (server_banner_name ssh_mitm_version int_of_str load_module issubclass _ s Hs). }
  destruct Hbanner as [banner Hbanner].
  assert (Hauth : exists c, attr (ns st) "authenticator" = VClass c).
  { destruct (server_module ssh_mitm_version int_of_str load_module issubclass _ s
                "--authenticator" _ "authenticator" "AuthenticatorPassThrough" "Authenticator"
                Hs eq_refl eq_refl eq_refl eq_refl) as (c & Hc & _).
    exists c. apply attr_lookup.
    destruct (Hattrs "authenticator") as [-> _];
      [apply (bool_decide_eq_true_1 _); vm_compute; reflexivity | done]. }
  eexists _, banner. split; [reflexivity|]. split; [done|].
  rewrite (main_dispatch APPIMAGE argv p st Hparse Hd Hw Hl) by (by rewrite Hname).
  rewrite (attr_lookup _ _ _ Hname). cbn [eq_str]. rewrite String.eqb_refl.
  match goal with |- run_server _ _ ?p1 = _ =>
    destruct (run_server_returns ssh_mitm_version (ns st) p1) as (proxy & -> & ->)
  end.
  - intros d Hdin. destruct (Hattrs d Hdin) as [-> H]. exact H.
  - intros _. exact Hauth.
  - cbn [Transport_run Transport_CLIENT_ID REQUEST_AGENT_BREAKIN root_level root_handlers
         paramiko_level trace].
    rewrite Hbanner. reflexivity.
Qed.

Lemma loads_only l :
  constructed (map (fun '(name, cls) => ModuleLoaded name cls) l) = []
  /\ started (map (fun '(name, cls) => ModuleLoaded name cls) l) = []
  /\ audits (map (fun '(name, cls) => ModuleLoaded name cls) l) = []
  /\ modules_loaded (map (fun '(name, cls) => ModuleLoaded name cls) l) = l.
Proof.
  induction l as [|[n c] l (IH1 & IH2 & IH3 & IH4)]; [done|].
  cbn. split_and!; [done | done | done |]. unfold modules_loaded in IH4. by rewrite IH4.
Qed.

(** What [run_server] does with the namespace of a parsed [server]
    command line. *)
Lemma run_server_parsed argv st p :
  parse_args int_of_str load_module issubclass top argv = Parsed st ->
  subcommand argv = Some "server" ->
  exists proxy banner c,
    proxy = {| listen_port := attr (ns st) "listen_port";
               key_file := attr (ns st) "host_key";
               key_algorithm := attr (ns st) "host_key_algorithm";
               key_length := attr (ns st) "host_key_length";
               ssh_interface := attr (ns st) "ssh_interface";
               scp_interface := attr (ns st) "scp_interface";
               sftp_interface := attr (ns st) "sftp_interface";
               sftp_handler := attr (ns st) "sftp_handler";
               server_tunnel_interface := attr (ns st) "server_tunnel_interface";
               client_tunnel_interface := attr (ns st) "client_tunnel_interface";
               authentication_interface := attr (ns st) "auth_interface";
               authenticator := attr (ns st) "authenticator";
               transparent := attr (ns st) "transparent";
               args := ns st |}
    /\ attr (ns st) "banner_name" = VStr banner
    /\ attr (ns st) "authenticator" = VClass c
    /\ run_server ssh_mitm_version (ns st) p =
       (inr tt,
        {| Transport_run := Transport_run p;
           Transport_CLIENT_ID := VStr banner;
           REQUEST_AGENT_BREAKIN :=
             if truthy (attr (ns st) "request_agent_breakin")
             then <[c := VBool true]> (REQUEST_AGENT_BREAKIN p)
             else REQUEST_AGENT_BREAKIN p;
           root_level := root_level p;
           root_handlers := root_handlers p;
           paramiko_level := paramiko_level p;
           trace := trace p ++ [
             ConsoleRule (Some "[bold blue]SSH-MITM - ssh audits made simple");
             ConsolePrint ("[bold]Version:[/bold] " +:+ ssh_mitm_version);
             ConsolePrint "[bold]Documentation:[/bold] https://docs.ssh-mitm.at";
             ConsolePrint "[bold]Issues:[/bold] https://github.com/ssh-mitm/ssh-mitm/issues";
             ConsoleRule None;
             NewProxyServer proxy;
             ProxyStart proxy
               {| at_Transport_run := Transport_run p;
                  at_Transport_CLIENT_ID := VStr banner;
                  at_REQUEST_AGENT_BREAKIN :=
                    if truthy (attr (ns st) "request_agent_breakin")
                    then <[c := VBool true]> (REQUEST_AGENT_BREAKIN p)
                    else REQUEST_AGENT_BREAKIN p |} ] |}).
Proof.
  intros Hparse Hsub.
  destruct (main_parsed_server _ st Hparse Hsub)
    as (s & Hs & _ & _ & Hattrs & Hname & Hd & Hl & Hw).
  assert (Hbanner : exists banner, attr (ns st) "banner_name" = VStr banner).
  { eexists. apply attr_lookup.
    destruct (Hattrs "banner_name") as [-> _];
      [apply (bool_decide_eq_true_1 _); vm_compute; reflexivity|].
    apply (server_banner_name ssh_mitm_version int_of_str load_module issubclass _ s Hs). }
  destruct Hbanner as [banner Hbanner].
  assert (Hauth : exists c, attr (ns st) "authenticator" = VClass c).
  { destruct (server_module ssh_mitm_version int_of_str load_module issubclass _ s
                "--authenticator" _ "authenticator" "AuthenticatorPassThrough" "Authenticator"
                Hs eq_refl eq_refl eq_refl eq_refl) as (c & Hc & _).
    exists c. apply attr_lookup.
    destruct (Hattrs "authenticator") as [-> _];
      [apply (bool_decide_eq_true_1 _); vm_compute; reflexivity | done]. }
  destruct Hauth as [c Hauth].
  eexists _, banner, c. split; [reflexivity|]. split; [done|]. split; [done|].
  destruct (run_server_returns ssh_mitm_version (ns st) p) as (proxy & -> & ->).
  - intros d Hdin. destruct (Hattrs d Hdin) as [-> H]. exact H.
  - intros _. eauto.
  - rewrite Hbanner, Hauth. reflexivity.
Qed.

(** C3. For every parsed [server] command line, [run_server] runs to
    the end and constructs exactly one [SSHProxyServer], which is the one
    it starts; each keyword argument of the construction is the parsed
    attribute it is taken from: listen port, transparent flag, host key
    file, algorithm and length, the forwarder classes, the
    authentication interface and the authenticator (and the namespace
    itself, as [args]). *)
Theorem run_server_passes_parsed_configuration (argv : list Arg) (st : PState) (p : Process) :
  parse_args int_of_str load_module issubclass top argv = Parsed st ->
  subcommand argv = Some "server" ->
  exists proxy t,
    fst (run_server ssh_mitm_version (ns st) p) = inr tt
    /\ trace (snd (run_server ssh_mitm_version (ns st) p)) = trace p ++ t
    /\ constructed t = [proxy]
    /\ started t = [proxy]
    /\ ns st !! "listen_port" = Some (listen_port proxy)
    /\ ns st !! "transparent" = Some (transparent proxy)
    /\ ns st !! "host_key" = Some (key_file proxy)
    /\ ns st !! "host_key_algorithm" = Some (key_algorithm proxy)
    /\ ns st !! "host_key_length" = Some (key_length proxy)
    /\ ns st !! "ssh_interface" = Some (ssh_interface proxy)
    /\ ns st !! "scp_interface" = Some (scp_interface proxy)
    /\ ns st !! "sftp_interface" = Some (sftp_interface proxy)
    /\ ns st !! "sftp_handler" = Some (sftp_handler proxy)
    /\ ns st !! "server_tunnel_interface" = Some (server_tunnel_interface proxy)
    /\ ns st !! "client_tunnel_interface" = Some (client_tunnel_interface proxy)
    /\ ns st !! "auth_interface" = Some (authentication_interface proxy)
    /\ ns st !! "authenticator" = Some (authenticator proxy)
    /\ args proxy = ns st.
Proof.
  intros Hparse Hsub.
  destruct (run_server_parsed argv st p Hparse Hsub) as (proxy & banner & c & Hproxy & _ & _ & ->).
  destruct (main_parsed_server _ st Hparse Hsub) as (s & _ & _ & _ & Hattrs & _).
  assert (Hget : forall d, bool_decide (d ∈ dest <$> init_server_parser ssh_mitm_version) = true ->
                           ns st !! d = Some (attr (ns st) d)).
  { intros d Hd. apply getattr_attr. apply bool_decide_eq_true in Hd.
    destruct (Hattrs d Hd) as [-> H]. exact H. }
  eexists proxy, _. cbn [fst snd trace].
  split; [done|]. split; [reflexivity|]. split; [reflexivity|]. split; [reflexivity|].
  rewrite Hproxy. cbn [listen_port transparent key_file key_algorithm key_length
    ssh_interface scp_interface sftp_interface sftp_handler server_tunnel_interface
    client_tunnel_interface authentication_interface authenticator args].
  split_and!; try done; apply Hget; vm_compute; reflexivity.
Qed.

Lemma omitted_server argv st s f a d dv :
  parse_server (subcommand_arguments argv) = Parsed s ->
  (forall d, d ∈ dest <$> init_server_parser ssh_mitm_version ->
     ns st !! d = ns s !! d /\ is_Some (ns s !! d)) ->
  find_action (arguments (parser_mitm_server ssh_mitm_version)) f = Some a ->
  option_strings a = [f] -> dest a = d ->
  initial_namespace (parser_mitm_server ssh_mitm_version) !! d = Some dv ->
  bool_decide (d ∈ dest <$> init_server_parser ssh_mitm_version) = true ->
  omitted f (subcommand_arguments argv) ->
  attr (ns st) d = dv.
Proof.
  intros Hs Hattrs Hf Hopt Hd Hinit Hin Hom. apply attr_lookup.
  apply bool_decide_eq_true in Hin. destruct (Hattrs d Hin) as [-> _].
  by apply (server_omitted ssh_mitm_version int_of_str load_module issubclass
              (subcommand_arguments argv) s f a d dv).
Qed.

(** C10. When its options are omitted from a parsed [server] command
    line, the server is constructed with listen port 10022, host key
    length 2048 and transparent mode off, and the banner is
    [SSHMITM_<version>]; with or without [--banner-name] the banner
    attribute is a string, never [None], so [run_server] always assigns
    it to [Transport._CLIENT_ID]. *)
Theorem server_defaults (argv : list Arg) (st : PState) (p : Process) :
  parse_args int_of_str load_module issubclass top argv = Parsed st ->
  subcommand argv = Some "server" ->
  exists proxy banner t,
    trace (snd (run_server ssh_mitm_version (ns st) p)) = trace p ++ t
    /\ constructed t = [proxy]
    /\ (omitted "--listen-port" (subcommand_arguments argv) ->
        listen_port proxy = VInt 10022)
    /\ (omitted "--host-key-length" (subcommand_arguments argv) ->
        key_length proxy = VInt 2048)
    /\ (omitted "--transparent" (subcommand_arguments argv) ->
        transparent proxy = VBool false)
    /\ ns st !! "banner_name" = Some (VStr banner)
    /\ (omitted "--banner-name" (subcommand_arguments argv) ->
        banner = "SSHMITM_" +:+ ssh_mitm_version)
    /\ Transport_CLIENT_ID (snd (run_server ssh_mitm_version (ns st) p)) = VStr banner.
Proof.
  intros Hparse Hsub.
  destruct (run_server_parsed argv st p Hparse Hsub)
    as (proxy & banner & c & Hproxy & Hbanner & _ & ->).
  destruct (main_parsed_server _ st Hparse Hsub) as (s & Hs & _ & _ & Hattrs & _).
  eexists proxy, banner, _. cbn [fst snd trace Transport_CLIENT_ID].
  split; [reflexivity|]. split; [reflexivity|].
  rewrite Hproxy. cbn [listen_port key_length transparent].
  split_and!.
  - intros Hom. eapply (omitted_server argv st s "--listen-port");
      [exact Hs | exact Hattrs | reflexivity.. | exact Hom].
  - intros Hom. eapply (omitted_server argv st s "--host-key-length");
      [exact Hs | exact Hattrs | reflexivity.. | exact Hom].
  - intros Hom. eapply (omitted_server argv st s "--transparent");
      [exact Hs | exact Hattrs | reflexivity.. | exact Hom].
  - rewrite <- Hbanner. apply getattr_attr.
    destruct (Hattrs "banner_name") as [-> H];
      [apply (bool_decide_eq_true_1 _); vm_compute; reflexivity | exact H].
  - intros Hom.
    assert (attr (ns st) "banner_name" = VStr ("SSHMITM_" +:+ ssh_mitm_version)) as H.
    { eapply (omitted_server argv st s "--banner-name");
        [exact Hs | exact Hattrs | reflexivity.. | exact Hom]. }
    congruence.
  - done.
Qed.

Lemma banner_supplied argv st :
  parse_args int_of_str load_module issubclass top argv = Parsed st ->
  subcommand argv = Some "server" ->
  attr (ns st) "banner_name" =
    VStr match supplied "--banner-name" (subcommand_arguments argv) None with
         | Some b => b
         | None => "SSHMITM_" +:+ ssh_mitm_version
         end.
Proof.
  intros Hparse Hsub.
  destruct (main_parsed_server _ st Hparse Hsub) as (s & Hs & _ & _ & Hattrs & _).
  apply attr_lookup.
  destruct (Hattrs "banner_name") as [-> _];
    [apply (bool_decide_eq_true_1 _); vm_compute; reflexivity|].
  apply (server_banner_name ssh_mitm_version int_of_str load_module issubclass _ s Hs).
Qed.

(** C5. On a parsed [server] command line [run_server] starts one
    server, and at its call of [proxy.start()] the configured banner is
    already in [Transport._CLIENT_ID]: the argument of the last
    [--banner-name] when one is given and [SSHMITM_<version>]
    otherwise.  So the server, started under these class attributes,
    shakes hands with every accepted connection under the configured
    banner; no handshake uses another banner, and a Session is handed
    off only right after the handshake of its connection. *)
Theorem handshake_uses_configured_banner
    (argv : list Arg) (st : PState) (p : Process) (accepted : list Connection) :
  parse_args int_of_str load_module issubclass top argv = Parsed st ->
  subcommand argv = Some "server" ->
  exists proxy classes banner,
    starts (trace (snd (run_server ssh_mitm_version (ns st) p)))
      = starts (trace p) ++ [(proxy, classes)]
    /\ started (trace (snd (run_server ssh_mitm_version (ns st) p)))
       = started (trace p) ++ [proxy]
    /\ banner = match supplied "--banner-name" (subcommand_arguments argv) None with
                | Some b => b
                | None => "SSHMITM_" +:+ ssh_mitm_version
                end
    /\ at_Transport_CLIENT_ID classes = VStr banner
    /\ (forall conn, conn ∈ accepted ->
          Handshake (conn_id conn) (VStr banner)
                    (key_file proxy) (key_algorithm proxy) (key_length proxy)
            ∈ SSHProxyServer_start proxy classes accepted)
    /\ (forall c b k a l,
          Handshake c b k a l ∈ SSHProxyServer_start proxy classes accepted ->
          b = VStr banner)
    /\ (forall i c,
          SSHProxyServer_start proxy classes accepted !! i = Some (SessionHandOff c) ->
          exists j, i = S j
            /\ SSHProxyServer_start proxy classes accepted !! j
               = Some (Handshake c (VStr banner)
                         (key_file proxy) (key_algorithm proxy) (key_length proxy))).
Proof.
  intros Hparse Hsub.
  destruct (run_server_parsed argv st p Hparse Hsub)
    as (proxy & banner & c & Hproxy & Hbanner & _ & Hrun).
  rewrite (banner_supplied argv st Hparse Hsub) in Hbanner. injection Hbanner as Hbanner.
  pose (classes :=
          {| at_Transport_run := Transport_run p;
             at_Transport_CLIENT_ID := VStr banner;
             at_REQUEST_AGENT_BREAKIN :=
               if truthy (attr (ns st) "request_agent_breakin")
               then <[c := VBool true]> (REQUEST_AGENT_BREAKIN p)
               else REQUEST_AGENT_BREAKIN p |}).
  exists proxy, classes, banner. rewrite Hrun. cbn [snd trace].
  split_and!.
  - unfold starts. rewrite omap_app. reflexivity.
  - unfold started. by rewrite omap_app.
  - done.
  - reflexivity.
  - intros conn Hin. exact (start_handshakes proxy classes accepted conn Hin).
  - intros c0 b k a l Hin. exact (start_banner proxy classes accepted c0 b k a l Hin).
  - intros i c0 Hi. exact (start_hand_off proxy classes accepted i c0 Hi).
Qed.

Lemma appimage_argv_subcommand APPIMAGE argv w :
  subcommand argv = Some w -> w <> "" -> appimage_argv APPIMAGE argv = argv.
Proof.
  intros Hsub Hw. unfold appimage_argv.
  destruct (match APPIMAGE with Some s => truthy (VStr s) | None => false end); [|done].
  case_bool_decide as Hargv; [|done]. subst argv. cbn in Hsub. congruence.
Qed.

Lemma main_exit APPIMAGE argv p x :
  parse_args int_of_str load_module issubclass top (appimage_argv APPIMAGE argv) = Exit x ->
  main ssh_mitm_version int_of_str load_module issubclass audit_parser APPIMAGE argv p
    = (inl (SystemExit x), p).
Proof. intros H. unfold main. cbv zeta. by rewrite H. Qed.

(** A value outside the choices stops the server's parser wherever the
    option stands, in either spelling. *)
Lemma server_bad_algorithm v pre post :
  v ∉ ["dss"; "rsa"; "ecdsa"; "ed25519"] ->
  (exists x, parse_server (pre ++ Opt "--host-key-algorithm" (Some v) :: post) = Exit x)
  /\ (exists x, parse_server (pre ++ Opt "--host-key-algorithm" None :: Word v :: post)
                = Exit x).
Proof.
  intros Hv.
  assert (Hget : get_value int_of_str TStr (Some ["dss"; "rsa"; "ecdsa"; "ed25519"]) v = None).
  { unfold get_value. by rewrite bool_decide_eq_false_2. }
  split; apply parse_loop_stops; try done; intros st0; exists usage_error;
    rewrite (consume_optional_Store int_of_str load_module issubclass
               (arguments (parser_mitm_server ssh_mitm_version))
               "--host-key-algorithm" _ TStr (Some ["dss"; "rsa"; "ecdsa"; "ed25519"])
               _ _ st0 eq_refl eq_refl); cbn [option_argument head]; by rewrite Hget.
Qed.

(** C4. [--host-key-algorithm] accepts [dss], [rsa], [ecdsa] and
    [ed25519], in either spelling, and a parsed [server] command line
    holds one of these four, [rsa] when the option is omitted; with any
    other value parsing fails, [main] exits with the process untouched
    and no server is constructed.  [--host-key-length] defaults to 2048
    and its value is the size of the generated key for [rsa] and [dss]
    only. *)
Theorem host_key_algorithm_choices :
  (forall v, v ∈ ["dss"; "rsa"; "ecdsa"; "ed25519"] ->
     (exists st,
        parse_args int_of_str load_module issubclass top
          [Word "server"; Opt "--host-key-algorithm" None; Word v] = Parsed st
        /\ ns st !! "host_key_algorithm" = Some (VStr v))
     /\ (exists st,
        parse_args int_of_str load_module issubclass top
          [Word "server"; Opt "--host-key-algorithm" (Some v)] = Parsed st
        /\ ns st !! "host_key_algorithm" = Some (VStr v)))
  /\ (forall argv st,
       parse_args int_of_str load_module issubclass top argv = Parsed st ->
       subcommand argv = Some "server" ->
       exists v,
         v ∈ ["dss"; "rsa"; "ecdsa"; "ed25519"]
         /\ ns st !! "host_key_algorithm" = Some (VStr v)
         /\ v = match supplied "--host-key-algorithm" (subcommand_arguments argv) None with
                | Some s => s
                | None => "rsa"
                end)
  /\ (forall APPIMAGE argv pre v post p,
       subcommand argv = Some "server" ->
       v ∉ ["dss"; "rsa"; "ecdsa"; "ed25519"] ->
       subcommand_arguments argv = pre ++ Opt "--host-key-algorithm" (Some v) :: post
       \/ subcommand_arguments argv = pre ++ Opt "--host-key-algorithm" None :: Word v :: post ->
       exists x,
         parse_args int_of_str load_module issubclass top argv = Exit x
         /\ main ssh_mitm_version int_of_str load_module issubclass audit_parser
              APPIMAGE argv p = (inl (SystemExit x), p))
  /\ (forall argv st,
       parse_args int_of_str load_module issubclass top argv = Parsed st ->
       subcommand argv = Some "server" ->
       exists v len,
         ns st !! "host_key_algorithm" = Some (VStr v)
         /\ ns st !! "host_key_length" = Some len
         /\ (omitted "--host-key-length" (subcommand_arguments argv) -> len = VInt 2048)
         /\ forall proxy,
              key_algorithm proxy = VStr v -> key_length proxy = len ->
              generated_key_bits proxy =
                if bool_decide (v = "rsa" \/ v = "dss") then Some len else None).
Proof.
  assert (Halg : forall argv st,
    parse_args int_of_str load_module issubclass top argv = Parsed st ->
    subcommand argv = Some "server" ->
    exists v,
      v ∈ ["dss"; "rsa"; "ecdsa"; "ed25519"]
      /\ ns st !! "host_key_algorithm" = Some (VStr v)
      /\ v = match supplied "--host-key-algorithm" (subcommand_arguments argv) None with
             | Some s => s
             | None => "rsa"
             end).
  { intros argv st Hparse Hsub.
    destruct (main_parsed_server _ st Hparse Hsub) as (s & Hs & _ & _ & Hattrs & _).
    destruct (server_host_key_algorithm ssh_mitm_version int_of_str load_module issubclass
                _ s Hs) as (v & Hv & Hlook & Hsup).
    exists v. split_and!; [done | | done].
    destruct (Hattrs "host_key_algorithm") as [-> _];
      [apply (bool_decide_eq_true_1 _); vm_compute; reflexivity | done]. }
  split_and!.
  - intros v Hv.
    repeat (apply elem_of_cons in Hv as [-> | Hv]); [..|by apply elem_of_nil in Hv];
      (split; eexists; (split; [reflexivity|reflexivity])).
  - exact Halg.
  - intros APPIMAGE argv pre v post p Hsub Hv Hbad.
    destruct (parse_args int_of_str load_module issubclass top argv) as [st|x] eqn:Hparse.
    + exfalso.
      destruct (main_parsed_server _ st Hparse Hsub) as (s & Hs & _).
      destruct (server_bad_algorithm v pre post Hv) as [[x1 H1] [x2 H2]].
      destruct Hbad as [Hbad | Hbad]; rewrite Hbad in Hs; congruence.
    + exists x. split; [done|]. apply main_exit.
      rewrite (appimage_argv_subcommand APPIMAGE argv "server" Hsub); done.
  - intros argv st Hparse Hsub.
    destruct (Halg argv st Hparse Hsub) as (v & Hv & Hlook & _).
    destruct (main_parsed_server _ st Hparse Hsub) as (s & Hs & _ & _ & Hattrs & _).
    exists v, (attr (ns st) "host_key_length"). split_and!.
    + done.
    + apply getattr_attr. destruct (Hattrs "host_key_length") as [-> H];
        [apply (bool_decide_eq_true_1 _); vm_compute; reflexivity | exact H].
    + intros Hom. eapply (omitted_server argv st s "--host-key-length");
        [exact Hs | exact Hattrs | reflexivity.. | exact Hom].
    + intros proxy Ha Hl. unfold generated_key_bits. rewrite Ha, Hl. cbn [eq_str].
      repeat (apply elem_of_cons in Hv as [-> | Hv]); [..|by apply elem_of_nil in Hv];
        reflexivity.
Qed.

Lemma server_selected argv st s f a d c0 base :
  parse_server (subcommand_arguments argv) = Parsed s ->
  (forall d, d ∈ dest <$> init_server_parser ssh_mitm_version ->
     ns st !! d = ns s !! d /\ is_Some (ns s !! d)) ->
  find_action (arguments (parser_mitm_server ssh_mitm_version)) f = Some a ->
  dest a = d -> default a = Some (VClass c0) -> action a = StoreModule base ->
  bool_decide (d ∈ dest <$> init_server_parser ssh_mitm_version) = true ->
  selected load_module issubclass (attr (ns st) d) c0 base.
Proof.
  intros Hs Hattrs Hf Hd Hdef Hact Hin.
  destruct (server_module ssh_mitm_version int_of_str load_module issubclass _ s
              f a d c0 base Hs Hf Hd Hdef Hact) as (c & Hc & Hsel).
  exists c. split; [|done]. apply attr_lookup.
  apply bool_decide_eq_true in Hin. by destruct (Hattrs d Hin) as [-> _].
Qed.

(** C6. On a parsed [server] command line every forwarder, interface
    and authenticator selection handed to the [SSHProxyServer]
    constructor is a class object, the declared default or a class the
    module loader returned during parsing; all module loading of the run
    precedes the construction, and none follows it. *)
Theorem modules_resolved_before_construction
    (APPIMAGE : option string) (argv : list Arg) (st : PState) (p : Process) :
  parse_args int_of_str load_module issubclass top (appimage_argv APPIMAGE argv) = Parsed st ->
  subcommand (appimage_argv APPIMAGE argv) = Some "server" ->
  exists proxy before after,
    trace (snd (main ssh_mitm_version int_of_str load_module issubclass audit_parser
                  APPIMAGE argv p))
      = trace p ++ before ++ NewProxyServer proxy :: after
    /\ constructed before = []
    /\ modules_loaded after = []
    /\ loaded_by load_module (modules_loaded before)
    /\ selected load_module issubclass (ssh_interface proxy)
         "SSHMirrorForwarder" "SSHBaseForwarder"
    /\ selected load_module issubclass (scp_interface proxy)
         "SCPStorageForwarder" "SCPBaseForwarder"
    /\ selected load_module issubclass (sftp_interface proxy)
         "SFTPProxyServerInterface" "BaseSFTPServerInterface"
    /\ selected load_module issubclass (sftp_handler proxy)
         "SFTPHandlerStoragePlugin" "SFTPHandlerBasePlugin"
    /\ selected load_module issubclass (server_tunnel_interface proxy)
         "InjectableServerTunnelForwarder" "ServerTunnelBaseForwarder"
    /\ selected load_module issubclass (client_tunnel_interface proxy)
         "ClientTunnelForwarder" "ClientTunnelBaseForwarder"
    /\ selected load_module issubclass (authentication_interface proxy)
         "ServerInterface" "BaseServerInterface"
    /\ selected load_module issubclass (authenticator proxy)
         "AuthenticatorPassThrough" "Authenticator".
Proof.
  intros Hparse Hsub.
  destruct (main_server APPIMAGE argv p st Hparse Hsub) as (proxy & banner & Hproxy & _ & ->).
  destruct (main_parsed_server _ st Hparse Hsub) as (s & Hs & _ & Hl & Hattrs & _).
  destruct (loads_only (loaded st)) as (Hc & _ & _ & Hm).
  eexists proxy,
    (map (fun '(name, cls) => ModuleLoaded name cls) (loaded st) ++ [
       ConsoleRule (Some "[bold blue]SSH-MITM - ssh audits made simple");
       ConsolePrint ("[bold]Version:[/bold] " +:+ ssh_mitm_version);
       ConsolePrint "[bold]Documentation:[/bold] https://docs.ssh-mitm.at";
       ConsolePrint "[bold]Issues:[/bold] https://github.com/ssh-mitm/ssh-mitm/issues";
       ConsoleRule None ]),
    [ProxyStart proxy _].
  cbn [snd trace]. split_and!.
  - rewrite <- !app_assoc. reflexivity.
  - unfold constructed in *. rewrite omap_app, Hc. reflexivity.
  - reflexivity.
  - unfold modules_loaded in *. rewrite omap_app, Hm. cbn. rewrite app_nil_r, Hl.
    by destruct (server_parsed ssh_mitm_version int_of_str load_module issubclass _ s Hs)
      as (_ & _ & ?).
  - rewrite Hproxy. cbn [ssh_interface].
    eapply (server_selected (appimage_argv APPIMAGE argv) st s "--ssh-interface");
      [exact Hs | exact Hattrs | reflexivity..].
  - rewrite Hproxy. cbn [scp_interface].
    eapply (server_selected (appimage_argv APPIMAGE argv) st s "--scp-interface");
      [exact Hs | exact Hattrs | reflexivity..].
  - rewrite Hproxy. cbn [sftp_interface].
    eapply (server_selected (appimage_argv APPIMAGE argv) st s "--sftp-interface");
      [exact Hs | exact Hattrs | reflexivity..].
  - rewrite Hproxy. cbn [sftp_handler].
    eapply (server_selected (appimage_argv APPIMAGE argv) st s "--sftp-handler");
      [exact Hs | exact Hattrs | reflexivity..].
  - rewrite Hproxy. cbn [server_tunnel_interface].
    eapply (server_selected (appimage_argv APPIMAGE argv) st s "--server-tunnel");
      [exact Hs | exact Hattrs | reflexivity..].
  - rewrite Hproxy. cbn [client_tunnel_interface].
    eapply (server_selected (appimage_argv APPIMAGE argv) st s "--client-tunnel");
      [exact Hs | exact Hattrs | reflexivity..].
  - rewrite Hproxy. cbn [authentication_interface].
    eapply (server_selected (appimage_argv APPIMAGE argv) st s "--auth-interface");
      [exact Hs | exact Hattrs | reflexivity..].
  - rewrite Hproxy. cbn [authenticator].
    eapply (server_selected (appimage_argv APPIMAGE argv) st s "--authenticator");
      [exact Hs | exact Hattrs | reflexivity..].
Qed.

Lemma main_parsed_attrs argv st :
  parse_args int_of_str load_module issubclass top argv = Parsed st ->
  is_Some (ns st !! "debug")
  /\ is_Some (ns st !! "disable_workarounds")
  /\ is_Some (ns st !! "paramiko_log_level")
  /\ is_Some (ns st !! "subparser_name").
Proof.
  intros Hparse.
  destruct (main_parsed argv st Hparse)
    as (w & s & n & _ & _ & _ & _ & Hns & Hd & Hp & Hdw).
  assert (Hin : forall d, is_Some (<["subparser_name" := VStr w]> n !! d) ->
                          is_Some (ns st !! d)).
  { intros d [v Hv]. rewrite Hns.
    destruct (ns s !! d) as [v'|] eqn:Hsd.
    - exists v'. by apply lookup_union_Some_l.
    - rewrite lookup_union_r by done. eauto. }
  split_and!; apply Hin.
  - rewrite lookup_insert_ne by done. exact Hd.
  - rewrite lookup_insert_ne by done. exact Hdw.
  - rewrite lookup_insert_ne by done. exact Hp.
  - rewrite lookup_insert_eq. eauto.
Qed.


Lemma lookup_mro_insert (d : gmap string Value) c v pre post :
  (forall c', c' ∈ pre -> c' <> c /\ d !! c' = None) ->
  lookup_mro (<[c := v]> d) (pre ++ c :: post) = Some v.
Proof.
  induction pre as [|c0 pre IH]; intros Hpre; cbn.
  - by rewrite lookup_insert_eq.
  - destruct (Hpre c0) as [Hne Hnone]; [by left|].
    rewrite lookup_insert_ne, Hnone by done.
    apply IH. intros c' Hin. apply Hpre. by right.
Qed.

Lemma appimage_argv_cases APPIMAGE argv :
  appimage_argv APPIMAGE argv = argv
  \/ (argv = [Word ""] /\ appimage_argv APPIMAGE argv = []).
Proof.
  unfold appimage_argv.
  destruct (match APPIMAGE with Some s => truthy (VStr s) | None => false end); [|by left].
  case_bool_decide; [by right | by left].
Qed.

(** C9. Provided the [audit] parser does not itself write the
    [subparser_name] attribute: a command line whose subcommand is
    missing or is neither [server] nor [audit] makes [main] exit from
    parsing with nothing done; and when parsing succeeds [main] returns
    after exactly one action, [run_server] (one server constructed and
    started, no audit) when the subcommand is [server], [run_audit] on
    the parsed namespace (no server) when it is [audit]. *)
Theorem cli_dispatches_on_subcommand
    (APPIMAGE : option string) (argv : list Arg) (p : Process) :
  (forall args s, audit_parser args = Parsed s -> ns s !! "subparser_name" = None) ->
  (subcommand argv <> Some "server" -> subcommand argv <> Some "audit" ->
   exists x,
     main ssh_mitm_version int_of_str load_module issubclass audit_parser APPIMAGE argv p
       = (inl (SystemExit x), p))
  /\ (forall st,
       parse_args int_of_str load_module issubclass top (appimage_argv APPIMAGE argv)
         = Parsed st ->
       exists t,
         fst (main ssh_mitm_version int_of_str load_module issubclass audit_parser
                APPIMAGE argv p) = inr tt
         /\ trace (snd (main ssh_mitm_version int_of_str load_module issubclass audit_parser
                          APPIMAGE argv p)) = trace p ++ t
         /\ ((subcommand argv = Some "server"
              /\ (exists proxy, constructed t = [proxy] /\ started t = [proxy])
              /\ audits t = [])
             \/ (subcommand argv = Some "audit"
                 /\ constructed t = [] /\ started t = []
                 /\ audits t = [ns st]))).
Proof.
  intros Haudit.
  assert (Hraw : forall w, subcommand (appimage_argv APPIMAGE argv) = Some w ->
                           subcommand argv = Some w).
  { intros w Hw. destruct (appimage_argv_cases APPIMAGE argv) as [Heq | [_ Heq]];
      rewrite Heq in Hw; [done | discriminate]. }
  split.
  - intros Hns Hna.
    destruct (parse_args int_of_str load_module issubclass top (appimage_argv APPIMAGE argv))
      as [st|x] eqn:Hparse; [|exists x; by apply main_exit].
    exfalso.
    destruct (main_parsed _ st Hparse) as (w & s & n & Hw & Hcase & _).
    apply Hraw in Hw. destruct Hcase as [[-> _] | [-> _]]; congruence.
  - intros st Hparse.
    destruct (main_parsed _ st Hparse) as (w & s & n & Hw & Hcase & _ & _ & Hns & _).
    destruct Hcase as [[-> Hs] | [-> Hs]].
    + destruct (main_server APPIMAGE argv p st Hparse Hw) as (proxy & banner & _ & _ & ->).
      destruct (loads_only (loaded st)) as (Hc & Hst & Ha & _).
      eexists. cbn [fst snd trace]. split; [done|].
      split; [by rewrite <- app_assoc|].
      left. split; [by apply Hraw|].
      unfold constructed, started, audits in *.
      rewrite !omap_app, Hc, Hst, Ha. split; [|done]. by exists proxy.
    + destruct (main_parsed_attrs _ st Hparse) as (Hd & Hdw & Hl & Hsp).
      rewrite (main_dispatch APPIMAGE argv p st Hparse Hd Hdw Hl Hsp).
      assert (Hname : attr (ns st) "subparser_name" = VStr "audit").
      { apply attr_lookup. rewrite Hns, lookup_union_r by (by eapply Haudit).
        by rewrite lookup_insert_eq. }
      rewrite Hname. cbn [eq_str String.eqb Ascii.eqb Bool.eqb].
      destruct (loads_only (loaded st)) as (Hc & Hst & Ha & _).
      eexists. cbn [fst snd trace run_audit emit modify]. split; [done|].
      split; [by rewrite <- app_assoc|].
      right. split; [by apply Hraw|].
      unfold constructed, started, audits in *.
      rewrite !omap_app, Hc, Hst, Ha. done.
Qed.

End Main.

(** ** On concrete command lines *)

Lemma sample_audit_parser args s :
  Sample.audit_parser args = Parsed s -> ns s !! "subparser_name" = None.
Proof.
  intros H. unfold Sample.audit_parser, parse_known_args in H.
  pose proof (parse_loop_typed Sample.int_of_str Sample.load_module Sample.issubclass
                {| arguments := [help_argument]; subparsers := None |} args _ s eq_refl H
                (install_defaults_typed _ _ _ [help_argument])) as Ht.
  destruct (ns s !! "subparser_name") as [v|] eqn:Hv; [|done].
  destruct (Ht _ _ Hv) as (a & Ha & Hd & _).
  apply list_elem_of_singleton in Ha as ->. discriminate.
Qed.



(** C3, on [Sample.audit_run]: one server, listening on the parsed
    port. *)
Lemma run_server_passes_parsed_configuration_witness :
  exists proxy,
    constructed (trace (snd (Sample.run_server (ns (Sample.parsed Sample.audit_run))
                               Sample.fresh))) = [proxy]
    /\ listen_port proxy = VInt 2222
    /\ authenticator proxy = VClass "AuthenticatorPassword".
Proof.
  destruct (run_server_passes_parsed_configuration
              Sample.version Sample.int_of_str Sample.load_module Sample.issubclass
              Sample.audit_parser Sample.audit_run (Sample.parsed Sample.audit_run)
              Sample.fresh)
    as (proxy & t & _ & Ht & Hc & _ & Hport & _ & _ & _ & _ & _ & _ & _ & _ & _ & _ & _
        & Hauth & _).
  - vm_compute. reflexivity.
  - reflexivity.
  - exists proxy. unfold Sample.run_server. rewrite Ht. cbn [Sample.fresh trace app].
    split; [exact Hc|].
    assert (ns (Sample.parsed Sample.audit_run) !! "listen_port" = Some (VInt 2222)) as E1
      by (vm_compute; reflexivity).
    assert (ns (Sample.parsed Sample.audit_run) !! "authenticator"
            = Some (VClass "AuthenticatorPassword")) as E2
      by (vm_compute; reflexivity).
    rewrite E1 in Hport. rewrite E2 in Hauth. split; congruence.
Defined.

(** C4, on [--host-key-algorithm md5]. *)
Lemma host_key_algorithm_choices_witness :
  exists x,
    Sample.main None [Word "server"; Opt "--host-key-algorithm" None; Word "md5"] Sample.fresh
      = (inl (SystemExit x), Sample.fresh).
Proof.
  destruct (host_key_algorithm_choices
              Sample.version Sample.int_of_str Sample.load_module Sample.issubclass
              Sample.audit_parser) as (_ & _ & Hbad & _).
  destruct (Hbad None [Word "server"; Opt "--host-key-algorithm" None; Word "md5"]
              [] "md5" [] Sample.fresh) as (x & _ & Hmain).
  - reflexivity.
  - intros H. repeat (apply elem_of_cons in H as [H|H]; [discriminate|]).
    by apply elem_of_nil in H.
  - right. reflexivity.
  - exists x. exact Hmain.
Defined.

(** C5, on [--banner-name=OpenSSH_8.2] and two connections. *)
Lemma handshake_uses_configured_banner_witness :
  exists proxy classes,
    starts (trace (snd (Sample.run_server
                          (ns (Sample.parsed
                                 [Word "server"; Opt "--banner-name" (Some "OpenSSH_8.2")]))
                          Sample.fresh)))
      = [(proxy, classes)]
    /\ Handshake 2 (VStr "OpenSSH_8.2")
         (key_file proxy) (key_algorithm proxy) (key_length proxy)
         ∈ SSHProxyServer_start proxy classes SampleSession.two_connections.
Proof.
  destruct (handshake_uses_configured_banner
              Sample.version Sample.int_of_str Sample.load_module Sample.issubclass
              Sample.audit_parser [Word "server"; Opt "--banner-name" (Some "OpenSSH_8.2")]
              (Sample.parsed [Word "server"; Opt "--banner-name" (Some "OpenSSH_8.2")])
              Sample.fresh SampleSession.two_connections)
    as (proxy & classes & banner & Hstarts & _ & Hbanner & _ & Hall & _).
  - vm_compute. reflexivity.
  - reflexivity.
  - exists proxy, classes. split; [exact Hstarts|].
    cbn in Hbanner. subst banner.
    apply (Hall {| conn_id := 2; handshake_succeeds := false |}).
    right. left.
Defined.

(** C6, on [Sample.audit_run]: the authenticator class was loaded
    before the server was constructed. *)
Lemma modules_resolved_before_construction_witness :
  exists proxy before after,
    trace (snd (Sample.main None Sample.audit_run Sample.fresh))
      = before ++ NewProxyServer proxy :: after
    /\ modules_loaded before = [("AuthenticatorPassword", "AuthenticatorPassword")]
    /\ modules_loaded after = [].
Proof.
  destruct (modules_resolved_before_construction
              Sample.version Sample.int_of_str Sample.load_module Sample.issubclass
              Sample.audit_parser None Sample.audit_run (Sample.parsed Sample.audit_run)
              Sample.fresh)
    as (proxy & before & after & Ht & _ & Hafter & _).
  - vm_compute. reflexivity.
  - reflexivity.
  - exists proxy, before, after. unfold Sample.main. rewrite Ht.
    split; [reflexivity|]. split; [|exact Hafter].
    cut (modules_loaded (before ++ NewProxyServer proxy :: after)
         = [("AuthenticatorPassword", "AuthenticatorPassword")]).
    { assert (modules_loaded (before ++ NewProxyServer proxy :: after)
              = modules_loaded before ++ modules_loaded after) as ->
        by (unfold modules_loaded; rewrite omap_app; reflexivity).
      by rewrite Hafter, app_nil_r. }
    cbn [Sample.fresh trace app] in Ht. rewrite <- Ht. vm_compute. reflexivity.
Defined.

(** C9, without a subcommand and with each of the two. *)
Lemma cli_dispatches_on_subcommand_witness :
  (exists x, Sample.main None [Opt "-d" None] Sample.fresh
             = (inl (SystemExit x), Sample.fresh))
  /\ (exists t, trace (snd (Sample.main None [Word "audit"] Sample.fresh)) = t
               /\ constructed t = [] /\ audits t = [ns (Sample.parsed [Word "audit"])]).
Proof.
  split.
  - destruct (cli_dispatches_on_subcommand
                Sample.version Sample.int_of_str Sample.load_module Sample.issubclass
                Sample.audit_parser None [Opt "-d" None] Sample.fresh sample_audit_parser)
      as [Hexit _].
    apply Hexit; discriminate.
  - destruct (cli_dispatches_on_subcommand
                Sample.version Sample.int_of_str Sample.load_module Sample.issubclass
                Sample.audit_parser None [Word "audit"] Sample.fresh sample_audit_parser)
      as [_ Hrun].
    destruct (Hrun (Sample.parsed [Word "audit"])) as (t & _ & Ht & Hcase).
    + vm_compute. reflexivity.
    + exists t. cbn [Sample.fresh trace app] in Ht. split; [exact Ht|].
      destruct Hcase as [(Hsub & _) | (_ & Hc & _ & Ha)]; [discriminate|]. done.
Defined.

(** C10, on a bare [server] command line. *)
Lemma server_defaults_witness :
  exists proxy,
    constructed (trace (snd (Sample.run_server (ns (Sample.parsed [Word "server"]))
                               Sample.fresh))) = [proxy]
    /\ listen_port proxy = VInt 10022
    /\ key_length proxy = VInt 2048
    /\ transparent proxy = VBool false
    /\ Transport_CLIENT_ID (snd (Sample.run_server (ns (Sample.parsed [Word "server"]))
                                   Sample.fresh))
       = VStr ("SSHMITM_" +:+ Sample.version).
Proof.
  destruct (server_defaults
              Sample.version Sample.int_of_str Sample.load_module Sample.issubclass
              Sample.audit_parser [Word "server"] (Sample.parsed [Word "server"]) Sample.fresh)
    as (proxy & banner & t & Ht & Hc & Hport & Hlen & Htr & _ & Hbanner & Hid).
  - vm_compute. reflexivity.
  - reflexivity.
  - assert (Hom : forall f, omitted f (subcommand_arguments [Word "server"])).
    { intros f e H. by apply elem_of_nil in H. }
    exists proxy. unfold Sample.run_server. rewrite Ht, Hid, (Hbanner (Hom _)).
    cbn [Sample.fresh trace app].
    split_and!; [exact Hc | by apply Hport | by apply Hlen | by apply Htr | reflexivity].
Defined.

(** * Further properties of [cli.py] *)

(** ** [run_server] on arbitrary namespaces *)

Section RunServerAnyNamespace.

Variable ssh_mitm_version : string.

Lemma quiet_bind {A B} (m : M A) (k : A -> M B) :
  quiet m -> (forall a, quiet (k a)) -> quiet (bind m k).
Proof.
  intros Hm Hk p. unfold bind. destruct (Hm p) as (Hc & Hs & He).
  destruct (m p) as [[e|a] p'] eqn:Hmp; cbn [fst snd] in *.
  - split_and!; [done | done |]. intros e' [= <-]. by apply He.
  - destruct (Hk a p') as (Hc' & Hs' & He'). split_and!; [congruence | congruence | done].
Qed.

Lemma quiet_ret {A} (a : A) : quiet (ret a).
Proof. intros p. split_and!; [done | done |]. intros e. discriminate. Qed.

Lemma quiet_getattr n name : quiet (getattr n name).
Proof.
  intros p. unfold getattr. destruct (n !! name); cbn.
  - split_and!; [done | done |]. intros e. discriminate.
  - split_and!; [done | done |]. intros e [= <-]. eauto.
Qed.

Lemma quiet_set_Transport_CLIENT_ID v : quiet (set_Transport_CLIENT_ID v).
Proof. intros p. split_and!; [done | done |]. intros e. discriminate. Qed.

Lemma quiet_set_REQUEST_AGENT_BREAKIN obj v : quiet (set_REQUEST_AGENT_BREAKIN obj v).
Proof.
  intros p. destruct obj; cbn; (split_and!; [done | done |]);
    intros e; try discriminate; intros [= <-]; eauto.
Qed.

Lemma quiet_emit e :
  (forall x c, e <> ProxyStart x c) -> quiet (emit e).
Proof.
  intros He p. cbn. split_and!; [done | | intros e'; discriminate].
  unfold started. rewrite omap_app. cbn. destruct e; try by rewrite app_nil_r.
  by destruct (He proxy classes).
Qed.

Lemma fails_before_start_bind {A B} (m : M A) (k : A -> M B) :
  quiet m -> (forall a, fails_before_start (k a)) -> fails_before_start (bind m k).
Proof.
  intros Hm Hk p e. unfold bind. destruct (Hm p) as (_ & Hs & He).
  destruct (m p) as [[e0|a] p'] eqn:Hmp; cbn [fst snd] in *.
  - intros [= <-]. split; [done|]. by apply He.
  - intros Hfail. destruct (Hk a p' e Hfail) as [Hs' Hn]. split; [congruence | done].
Qed.

Lemma fails_before_start_emit e : fails_before_start (emit e).
Proof. intros p e'. discriminate. Qed.

Lemma fails_before_start_start proxy : fails_before_start (start proxy).
Proof. intros p e'. discriminate. Qed.

Lemma requires_nil {A} n (m : M A) : requires [] n m.
Proof. intros p a _. constructor. Qed.

Lemma requires_getattr {B} n name names (k : Value -> M B) :
  (forall v, requires names n (k v)) -> requires (name :: names) n (bind (getattr n name) k).
Proof.
  intros Hk p b. unfold bind, getattr.
  destruct (n !! name) as [v|] eqn:Hv; cbn; [|discriminate].
  intros H. constructor; [by rewrite Hv | by eapply Hk].
Qed.

Lemma requires_bind {A B} n names (m : M A) (k : A -> M B) :
  (forall a, requires names n (k a)) -> requires names n (bind m k).
Proof.
  intros Hk p b. unfold bind. destruct (m p) as [[e|a] p']; cbn; [discriminate|].
  by apply Hk.
Qed.

Ltac quiet_step :=
  first
    [ apply quiet_getattr | apply quiet_ret
    | apply quiet_set_Transport_CLIENT_ID | apply quiet_set_REQUEST_AGENT_BREAKIN
    | apply quiet_emit; intros ? ?; discriminate
    | apply quiet_bind; [|intros ?]
    | match goal with |- quiet (if ?b then _ else _) => destruct b end ].

Lemma run_server_fails_before_start args :
  fails_before_start (run_server ssh_mitm_version args).
Proof.
  unfold run_server.
  repeat first
    [ apply fails_before_start_emit | apply fails_before_start_start
    | apply fails_before_start_bind; [repeat quiet_step | intros ?] ].
Qed.

(** X1. [run_server] needs its attributes: on whatever object it is given,
    it reaches the end only when the namespace has every attribute it
    reads; otherwise it stops with an [AttributeError], and then no
    server has been started.  It never raises [SystemExit]. *)
Theorem run_server_needs_its_attributes (args : Namespace) (p : Process) :
  (fst (run_server ssh_mitm_version args p) = inr tt ->
   Forall (fun d => is_Some (args !! d))
     ["request_agent_breakin"; "listen_port"; "host_key"; "host_key_algorithm";
      "host_key_length"; "ssh_interface"; "scp_interface"; "sftp_interface";
      "sftp_handler"; "server_tunnel_interface"; "client_tunnel_interface";
      "auth_interface"; "authenticator"; "transparent"; "banner_name"])
  /\ (forall e,
       fst (run_server ssh_mitm_version args p) = inl e ->
       started (trace (snd (run_server ssh_mitm_version args p))) = started (trace p)
       /\ exists name, e = AttributeError name).
Proof.
  split.
  - revert p.
    cut (requires
           ["request_agent_breakin"; "listen_port"; "host_key"; "host_key_algorithm";
            "host_key_length"; "ssh_interface"; "scp_interface"; "sftp_interface";
            "sftp_handler"; "server_tunnel_interface"; "client_tunnel_interface";
            "auth_interface"; "authenticator"; "transparent"; "banner_name"]
           args (run_server ssh_mitm_version args)).
    { intros H p Hp. by eapply H. }
    unfold run_server.
    apply requires_getattr; intros ?.
    do 6 (apply requires_bind; intros ?).
    do 13 (apply requires_getattr; intros ?).
    apply requires_bind; intros ?.
    apply requires_getattr; intros ?.
    apply requires_nil.
  - intros e. apply run_server_fails_before_start.
Qed.

Lemma keeps_configuration_quiet {A} (m : M A) : quiet m -> keeps_configuration m.
Proof. intros H p. by destruct (H p). Qed.

Lemma keeps_configuration_emit e : keeps_configuration (emit e).
Proof. done. Qed.

Lemma keeps_configuration_start proxy : keeps_configuration (start proxy).
Proof. done. Qed.

Lemma keeps_configuration_bind {A B} (m : M A) (k : A -> M B) :
  keeps_configuration m -> (forall a, keeps_configuration (k a)) ->
  keeps_configuration (bind m k).
Proof.
  intros Hm Hk p. unfold bind. specialize (Hm p).
  destruct (m p) as [[e|a] p']; cbn [snd] in *; [done|].
  by rewrite Hk.
Qed.

(** X2. The statements of [run_server] leave the transport's run loop
    and the logging configuration as [main] set them, on whatever
    namespace and wherever it stops.  (The constructor and [start] of
    [SSHProxyServer] are events here; what they do is not in
    [cli.py].) *)
Theorem run_server_leaves_library_configuration (args : Namespace) (p : Process) :
  library_configuration (snd (run_server ssh_mitm_version args p)) = library_configuration p.
Proof.
  revert p. change (keeps_configuration (run_server ssh_mitm_version args)).
  unfold run_server.
  repeat first
    [ apply keeps_configuration_emit | apply keeps_configuration_start
    | apply keeps_configuration_bind;
        [apply keeps_configuration_quiet; repeat quiet_step | intros ?] ].
Qed.

End RunServerAnyNamespace.

(** ** More on the parsing loop *)

Section ArgparseMore.

Variable int_of_str : string -> option Z.
Variable load_module : string -> option PyClass.
Variable issubclass : PyClass -> PyClass -> bool.

Local Abbreviation consume_optional := (consume_optional int_of_str load_module issubclass).
Local Abbreviation parse_loop := (parse_loop int_of_str load_module issubclass).
Local Abbreviation get_value := (get_value int_of_str).

(** The three ways an option step succeeds. *)
Lemma consume_optional_shape spec f e next st st' used :
  consume_optional spec f e next st = Took st' used ->
  exists a,
    find_action spec f = Some a
    /\ extras st' = extras st
    /\ ((action a = StoreTrue /\ e = None /\ used = false
         /\ ns st' = <[dest a := VBool true]> (ns st))
        \/ (takes_argument (action a) = true /\ used = false /\ exists v, e = Some v)
        \/ (takes_argument (action a) = true /\ used = true /\ e = None
            /\ exists w, next = Some (Word w))).
Proof.
  unfold consume_optional.
  destruct (find_action spec f) as [a|] eqn:Hfind; [|congruence].
  intros H. exists a. split; [done|].
  destruct (action a) as [ty ch| |base| |] eqn:Hact.
  - destruct (option_argument e next) as [[s u]|] eqn:Harg; [|congruence].
    destruct (get_value ty ch s) as [v|]; [|congruence].
    injection H as <- <-. split; [done|]. right.
    unfold option_argument in Harg.
    destruct e as [v'|]; [injection Harg as <- <-; left; eauto|].
    destruct next as [[|w]|]; try congruence. injection Harg as <- <-. right. eauto.
  - destruct e; [congruence|]. injection H as <- <-. split; [done|]. by left.
  - destruct (option_argument e next) as [[s u]|] eqn:Harg; [|congruence].
    destruct (load_module s) as [c|]; [|congruence].
    destruct (issubclass c base); [|congruence].
    injection H as <- <-. split; [done|]. right.
    unfold option_argument in Harg.
    destruct e as [v'|]; [injection Harg as <- <-; left; eauto|].
    destruct next as [[|w]|]; try congruence. injection Harg as <- <-. right. eauto.
  - destruct e; congruence.
  - destruct e; congruence.
Qed.

(** A flag's attribute is [True] exactly when one of its option strings
    occurs. *)
Lemma parse_loop_flag (p : Parser) a args st :
  subparsers p = None ->
  action a = StoreTrue ->
  (forall g, g ∈ option_strings a -> find_action (arguments p) g = Some a) ->
  (forall g a', find_action (arguments p) g = Some a' -> dest a' = dest a ->
                g ∈ option_strings a) ->
  forall st', parse_loop p args st = Parsed st' ->
  ns st' !! dest a =
    if flag_given (option_strings a) args then Some (VBool true) else ns st !! dest a.
Proof.
  intros Hp Hact Hmine Honly.
  assert (Hstep : forall g e next st0 st1 used,
    consume_optional (arguments p) g e next st0 = Took st1 used ->
    (g ∈ option_strings a /\ e = None /\ ns st1 !! dest a = Some (VBool true))
    \/ ((g ∉ option_strings a) /\ ns st1 !! dest a = ns st0 !! dest a)).
  { intros g e next st0 st1 used Hc. destruct (decide (g ∈ option_strings a)) as [Hin|Hout].
    - left. split; [done|].
      unfold consume_optional in Hc. rewrite (Hmine g Hin), Hact in Hc.
      destruct e; [congruence|]. injection Hc as <- _. cbn. by rewrite lookup_insert_eq.
    - right. split; [done|].
      apply consume_optional_Took in Hc as (a' & v & l & Hf' & _ & _ & _ & ->). cbn.
      apply lookup_insert_ne. intros Hd. apply Hout. by eapply Honly. }
  assert (Hsticky : forall args0 st0 st',
    parse_loop p args0 st0 = Parsed st' ->
    ns st0 !! dest a = Some (VBool true) -> ns st' !! dest a = Some (VBool true)).
  { intros args0 st0.
    apply (parse_loop_options_ind int_of_str load_module issubclass p
      (fun args st o => forall st', o = Parsed st' ->
         ns st !! dest a = Some (VBool true) -> ns st' !! dest a = Some (VBool true)) Hp).
    - intros st1 st' [= <-]. done.
    - intros w rest st1 IH st' Ho Hst. by apply IH.
    - intros g e rest st1 _ IH st' Ho Hst. by apply IH.
    - intros g e rest st1 x _ st'. congruence.
    - intros g e rest st1 st2 Hc IH st' Ho Hst. apply IH; [done|].
      destruct (Hstep _ _ _ _ _ _ Hc) as [(_ & _ & H) | (_ & H)]; congruence.
    - intros g w rest st1 st2 Hc IH st' Ho Hst. apply IH; [done|].
      destruct (Hstep _ _ _ _ _ _ Hc) as [(_ & _ & H) | (_ & H)]; congruence. }
  apply (parse_loop_options_ind int_of_str load_module issubclass p
    (fun args st o => forall st', o = Parsed st' ->
       ns st' !! dest a =
         if flag_given (option_strings a) args then Some (VBool true)
         else ns st !! dest a) Hp).
  - intros st0 st' [= <-]. done.
  - intros w rest st0 IH st' Ho. cbn. by rewrite (IH st' Ho).
  - intros g e rest st0 Hc IH st' Ho. cbn [flag_given existsb].
    assert (g ∉ option_strings a) as Hout.
    { intros Hin. unfold consume_optional in Hc. rewrite (Hmine g Hin), Hact in Hc.
      destruct e; congruence. }
    rewrite (IH st' Ho). cbn [add_extra ns].
    destruct e; [done|]. by rewrite bool_decide_eq_false_2.
  - intros g e rest st0 x _ st'. congruence.
  - intros g e rest st0 st1 Hc IH st' Ho. cbn [flag_given existsb].
    destruct (Hstep _ _ _ _ _ _ Hc) as [(Hin & -> & Hs) | (Hout & Hs)].
    + rewrite bool_decide_eq_true_2 by done. cbn. by eapply Hsticky.
    + rewrite (IH st' Ho), Hs.
      destruct e; [done|]. by rewrite bool_decide_eq_false_2.
  - intros g w rest st0 st1 Hc IH st' Ho. cbn [flag_given existsb].
    destruct (Hstep _ _ _ _ _ _ Hc) as [(Hin & _ & Hs) | (Hout & Hs)].
    + rewrite bool_decide_eq_true_2 by done. cbn. by eapply Hsticky.
    + rewrite (IH st' Ho), Hs. by rewrite bool_decide_eq_false_2.
Qed.

Local Abbreviation stored_value := (stored_value int_of_str load_module issubclass).

Lemma consume_optional_takes spec f a e next st :
  find_action spec f = Some a ->
  takes_argument (action a) = true ->
  (forall st' used,
     consume_optional spec f e next st = Took st' used ->
     exists s v, option_argument e next = Some (s, used)
       /\ stored_value (action a) s = Some v
       /\ ns st' = <[dest a := v]> (ns st))
  /\ consume_optional spec f e next st <> Unknown
  /\ (forall s used, option_argument e next = Some (s, used) ->
       stored_value (action a) s = None ->
       consume_optional spec f e next st = Stop usage_error).
Proof.
  intros Hfind Htakes. unfold consume_optional. rewrite Hfind.
  destruct (action a) as [ty ch| |base| |]; try discriminate; cbn [stored_value].
  - destruct (option_argument e next) as [[s u]|]; [|split_and!; congruence].
    destruct (get_value ty ch s) as [v|] eqn:Hv.
    + split_and!; [|congruence|congruence].
      intros st' used [= <- <-]. exists s, v. done.
    + split_and!; [congruence | congruence |]. intros s' u' [= <- <-]. done.
  - destruct (option_argument e next) as [[s u]|]; [|split_and!; congruence].
    destruct (load_module s) as [c|] eqn:Hc; [|split_and!; congruence].
    destruct (issubclass c base) eqn:Hsub; [|split_and!; congruence].
    split_and!; [|congruence|].
    + intros st' used [= <- <-]. exists s, (VClass c). by rewrite Hc, Hsub.
    + intros s' u' [= <- <-]. by rewrite Hc, Hsub.
Qed.

(** The attribute of a one-argument option holds what the action made
    of the argument of its last occurrence. *)
Lemma parse_loop_last_value (p : Parser) f a args st :
  subparsers p = None ->
  find_action (arguments p) f = Some a ->
  takes_argument (action a) = true ->
  (forall g a', find_action (arguments p) g = Some a' -> dest a' = dest a -> g = f) ->
  forall st',
  parse_loop p args st = Parsed st' ->
  ns st' !! dest a =
    match supplied f args None with
    | Some s => stored_value (action a) s
    | None => ns st !! dest a
    end.
Proof.
  intros Hp Hf Ha Honly.
  assert (Hstep : forall g e next st0 st1 used,
    consume_optional (arguments p) g e next st0 = Took st1 used ->
    (g = f /\ exists s v, option_argument e next = Some (s, used)
                       /\ stored_value (action a) s = Some v
                       /\ ns st1 !! dest a = Some v)
    \/ (g <> f /\ ns st1 !! dest a = ns st0 !! dest a)).
  { intros g e next st0 st1 used Hc. destruct (decide (g = f)) as [->|Hne].
    - left. split; [done|].
      destruct (consume_optional_takes (arguments p) f a e next st0 Hf Ha) as (Htook & _).
      destruct (Htook _ _ Hc) as (s & v & Harg & Hv & Hns).
      exists s, v. split_and!; [done | done |]. rewrite Hns. by rewrite lookup_insert_eq.
    - right. split; [done|].
      apply consume_optional_Took in Hc as (a' & v & l & Hf' & _ & _ & _ & ->). cbn.
      apply lookup_insert_ne. intros Hd. apply Hne. by eapply Honly. }
  assert (Hlast : forall rest s v (n : Namespace),
    stored_value (action a) s = Some v ->
    forall r,
    r = match supplied f rest None with
        | Some s' => stored_value (action a) s'
        | None => Some v
        end ->
    r = match supplied f rest (Some s) with
        | Some s' => stored_value (action a) s'
        | None => n !! dest a
        end).
  { intros rest s v n Hv r ->. rewrite (supplied_acc f rest (Some s)).
    by destruct (supplied f rest None). }
  apply (parse_loop_options_ind int_of_str load_module issubclass p
    (fun args st o => forall st', o = Parsed st' ->
       ns st' !! dest a =
         match supplied f args None with
         | Some s => stored_value (action a) s
         | None => ns st !! dest a
         end) Hp).
  - intros st0 st' [= <-]. done.
  - intros w rest st0 IH st' Ho. cbn. by rewrite (IH st' Ho).
  - intros g e rest st0 Hc IH st' Ho. cbn [supplied].
    assert (g <> f) as Hne.
    { intros ->.
      by destruct (consume_optional_takes (arguments p) f a e (head rest) st0 Hf Ha)
        as (_ & ? & _). }
    apply String.eqb_neq in Hne. rewrite Hne. by rewrite (IH st' Ho).
  - intros g e rest st0 x _ st'. congruence.
  - intros g e rest st0 st1 Hc IH st' Ho. cbn [supplied].
    destruct (Hstep _ _ _ _ _ _ Hc) as [(-> & s & v & Harg & Hv & Hs) | (Hne & Hs)].
    + rewrite String.eqb_refl. unfold option_argument in Harg.
      destruct e as [s'|]; [|destruct (head rest) as [[|]|]; congruence].
      injection Harg as ->. apply (Hlast rest s v (ns st0) Hv).
      by rewrite (IH st' Ho), Hs.
    + apply String.eqb_neq in Hne. rewrite Hne. by rewrite (IH st' Ho), Hs.
  - intros g w rest st0 st1 Hc IH st' Ho. cbn [supplied].
    destruct (Hstep _ _ _ _ _ _ Hc) as [(-> & s & v & Harg & Hv & Hs) | (Hne & Hs)].
    + rewrite String.eqb_refl. cbn in Harg. injection Harg as ->.
      apply (Hlast rest s v (ns st0) Hv). by rewrite (IH st' Ho), Hs.
    + apply String.eqb_neq in Hne. rewrite Hne. by rewrite (IH st' Ho), Hs.
Qed.

End ArgparseMore.

(** ** More on [main] *)

Section MainMore.

Variable ssh_mitm_version : string.
Variable int_of_str : string -> option Z.
Variable load_module : string -> option PyClass.
Variable issubclass : PyClass -> PyClass -> bool.
Variable audit_parser : list Arg -> Outcome PState.

Local Abbreviation top :=
  (main_parser ssh_mitm_version int_of_str load_module issubclass audit_parser).
Local Abbreviation top_options :=
  ({| arguments :=
        arguments (main_parser ssh_mitm_version int_of_str load_module issubclass
                     audit_parser);
      subparsers := None |}).
Local Abbreviation server := (parser_mitm_server ssh_mitm_version).
Local Abbreviation parse_server :=
  (parse_known_args int_of_str load_module issubclass (parser_mitm_server ssh_mitm_version)).
Local Abbreviation consume_top :=
  (consume_optional int_of_str load_module issubclass (arguments top)).
Local Abbreviation main := (main ssh_mitm_version int_of_str load_module issubclass audit_parser).

Lemma global_arguments_skip f e rest :
  (f = "--paramiko-log-level" -> e = None -> (exists w, head rest = Some (Word w)) -> False) ->
  global_arguments (Opt f e :: rest) = Opt f e :: global_arguments rest.
Proof.
  intros H. cbn. destruct e as [s|]; [done|].
  destruct rest as [|[g e'|w] rest']; [done | done |].
  destruct (String.eqb_spec f "--paramiko-log-level") as [->|]; [|done].
  exfalso. apply H; eauto.
Qed.

(** The token after an option matters only when the option takes it. *)
Lemma consume_optional_next spec f e next next' st :
  (consume_optional int_of_str load_module issubclass spec f e next st = Unknown ->
   consume_optional int_of_str load_module issubclass spec f e next' st = Unknown)
  /\ (forall st',
       consume_optional int_of_str load_module issubclass spec f e next st = Took st' false ->
       consume_optional int_of_str load_module issubclass spec f e next' st = Took st' false).
Proof.
  unfold consume_optional. destruct (find_action spec f) as [a|]; [|done].
  destruct (action a) as [ty ch| |base| |].
  - destruct e as [v|]; [done|]. cbn [option_argument].
    destruct next as [[|w]|]; split; try congruence; intros st';
      destruct (get_value int_of_str ty ch w); congruence.
  - done.
  - destruct e as [v|]; [done|]. cbn [option_argument].
    destruct next as [[|w]|]; split; try congruence; intros st';
      destruct (load_module w) as [c|]; try congruence;
      destruct (issubclass c base); congruence.
  - done.
  - done.
Qed.

(** The top-level part of a successful parse is the parse of the
    options before the subcommand. *)
Lemma top_parse_loop_global args st0 : forall st',
  parse_loop int_of_str load_module issubclass top args st0 = Parsed st' ->
  exists w s stm,
    subcommand args = Some w
    /\ args = global_arguments args ++ Word w :: subcommand_arguments args
    /\ ((w = "server" /\ parse_server (subcommand_arguments args) = Parsed s)
        \/ (w = "audit" /\ audit_parser (subcommand_arguments args) = Parsed s))
    /\ parse_loop int_of_str load_module issubclass top_options (global_arguments args) st0
       = Parsed stm
    /\ st' = {| ns := ns s ∪ <["subparser_name" := VStr w]> (ns stm);
                extras := extras stm ++ extras s;
                loaded := loaded stm ++ loaded s |}.
Proof.
  apply (parse_loop_command_ind int_of_str load_module issubclass top
    "subparser_name"
    [("server", parse_server); ("audit", audit_parser)]
    (fun args st0 o => forall st', o = Parsed st' ->
       exists w s stm,
         subcommand args = Some w
         /\ args = global_arguments args ++ Word w :: subcommand_arguments args
         /\ ((w = "server" /\ parse_server (subcommand_arguments args) = Parsed s)
             \/ (w = "audit" /\ audit_parser (subcommand_arguments args) = Parsed s))
         /\ parse_loop int_of_str load_module issubclass top_options
              (global_arguments args) st0 = Parsed stm
         /\ st' = {| ns := ns s ∪ <["subparser_name" := VStr w]> (ns stm);
                     extras := extras stm ++ extras s;
                     loaded := loaded stm ++ loaded s |}) eq_refl).
  - intros st st'. congruence.
  - intros w rest st st'.
    cbn [lookup_parser subcommand subcommand_arguments global_arguments].
    destruct (String.eqb_spec "server" w) as [<-|Hs].
    + destruct (parse_server rest) as [s|x] eqn:Hsub; [|congruence].
      intros [= <-]. exists "server", s, st.
      split_and!; [done | done | by left | done | done].
    + destruct (String.eqb_spec "audit" w) as [<-|Ha]; [|congruence].
      destruct (audit_parser rest) as [s|x] eqn:Hsub; [|congruence].
      intros [= <-]. exists "audit", s, st.
      split_and!; [done | done | by right | done | done].
  - intros f e rest st Hc IH st' Ho.
    destruct (IH st' Ho) as (w & s & stm & Hsub & Hargs & Hw & Hg & ->).
    assert (Hskip : f = "--paramiko-log-level" -> e = None ->
                    (exists w, head rest = Some (Word w)) -> False).
    { intros Hf _ _. by apply top_consume_Unknown in Hc. }
    exists w, s, stm.
    rewrite subcommand_skip, subcommand_arguments_skip, global_arguments_skip by done.
    split_and!; [done | by rewrite <- app_comm_cons, <- Hargs | done | | done].
    cbn [parse_loop arguments].
    destruct (consume_optional_next (arguments top) f e (head rest)
                (head (global_arguments rest)) st) as [Hunk _].
    by rewrite (Hunk Hc).
  - intros f e rest st x _ st'. congruence.
  - intros f e rest st st1 Hc IH st' Ho.
    destruct (IH st' Ho) as (w & s & stm & Hsub & Hargs & Hw & Hg & ->).
    pose proof Hc as Hc'.
    apply top_consume in Hc' as (_ & _ & _ & _ & Hused).
    assert (Hskip : f = "--paramiko-log-level" -> e = None ->
                    (exists w, head rest = Some (Word w)) -> False).
    { intros Hf He Hnext. by specialize (Hused Hf He Hnext). }
    exists w, s, stm.
    rewrite subcommand_skip, subcommand_arguments_skip, global_arguments_skip by done.
    split_and!; [done | by rewrite <- app_comm_cons, <- Hargs | done | | done].
    cbn [parse_loop arguments].
    destruct (consume_optional_next (arguments top) f e (head rest)
                (head (global_arguments rest)) st) as [_ Htook].
    by rewrite (Htook _ Hc).
  - intros f w0 rest st st1 Hc IH st' Ho.
    destruct (IH st' Ho) as (w & s & stm & Hsub & Hargs & Hw & Hg & ->).
    pose proof Hc as Hc'.
    apply top_consume in Hc' as (_ & _ & _ & Hused & _).
    exists w, s, stm.
    cbn [subcommand subcommand_arguments global_arguments]. rewrite (Hused eq_refl).
    cbn [String.eqb Ascii.eqb Bool.eqb].
    split_and!; [done | by rewrite <- !app_comm_cons, <- Hargs | done | | done].
    cbn [parse_loop arguments head]. rewrite <- (Hused eq_refl). by rewrite Hc.
Qed.

Lemma top_dests_NoDup : NoDup (dest <$> arguments top).
Proof. apply (bool_decide_unpack _). vm_compute. reflexivity. Qed.

Lemma main_parsed_global argv st :
  parse_args int_of_str load_module issubclass top argv = Parsed st ->
  subcommand argv = Some "server" ->
  exists s stm,
    argv = global_arguments argv ++ Word "server" :: subcommand_arguments argv
    /\ parse_server (subcommand_arguments argv) = Parsed s
    /\ extras s = []
    /\ parse_loop int_of_str load_module issubclass top_options (global_arguments argv)
         {| ns := initial_namespace top; extras := []; loaded := [] |} = Parsed stm
    /\ extras stm = []
    /\ ns st = ns s ∪ <["subparser_name" := VStr "server"]> (ns stm).
Proof.
  unfold parse_args, parse_known_args. intros Hparse Hsub.
  destruct (parse_loop _ _ _ top argv _) as [st'|x] eqn:Hloop; [|congruence].
  destruct (extras st') as [|y ys] eqn:Hex; [|congruence]. injection Hparse as <-.
  apply top_parse_loop_global in Hloop as (w & s & stm & Hw & Hargs & Hcase & Hg & ->).
  rewrite Hsub in Hw. injection Hw as <-.
  destruct Hcase as [[_ Hs] | [? _]]; [|discriminate].
  cbn [extras] in Hex. apply app_eq_nil in Hex as [Hex1 Hex2].
  exists s, stm. done.
Qed.

Lemma top_attribute argv st s stm d :
  parse_server (subcommand_arguments argv) = Parsed s ->
  ns st = ns s ∪ <["subparser_name" := VStr "server"]> (ns stm) ->
  bool_decide (d ∈ dest <$> init_server_parser ssh_mitm_version) = false ->
  d <> "subparser_name" ->
  ns st !! d = ns stm !! d.
Proof.
  intros Hs -> Hd Hne. apply bool_decide_eq_false in Hd.
  rewrite lookup_union_r.
  - by rewrite lookup_insert_ne.
  - destruct (ns s !! d) eqn:Hsd; [|done]. exfalso. apply Hd.
    eapply server_namespace_dom; [exact Hs | by rewrite Hsd].
Qed.

Lemma flag_lookup (p : Parser) a args st st' :
  subparsers p = None ->
  NoDup (dest <$> arguments p) ->
  action a = StoreTrue ->
  Forall (fun g => find_action (arguments p) g = Some a) (option_strings a) ->
  option_strings a <> [] ->
  parse_loop int_of_str load_module issubclass p args st = Parsed st' ->
  ns st' !! dest a =
    if flag_given (option_strings a) args then Some (VBool true) else ns st !! dest a.
Proof.
  intros Hp Hnd Hact Hmine Hne Hparse.
  assert (Ha : a ∈ arguments p).
  { destruct (option_strings a) as [|g gs] eqn:Hopt; [done|].
    apply Forall_cons in Hmine as [Hg _]. by apply find_action_Some in Hg as [? _]. }
  apply (parse_loop_flag int_of_str load_module issubclass p a args st Hp Hact); [| |done].
  - intros g Hg. by apply (proj1 (Forall_forall _ _) Hmine).
  - intros g a' Hfind Hd. apply find_action_Some in Hfind as [Ha' Hg].
    by rewrite <- (dest_unique _ a' a Hnd Ha' Ha Hd).
Qed.

Lemma ns_mk (n : Namespace) e l : ns {| ns := n; extras := e; loaded := l |} = n.
Proof. reflexivity. Qed.

Lemma server_integer argv st s f a d z0 :
  parse_server (subcommand_arguments argv) = Parsed s ->
  (forall d, d ∈ dest <$> init_server_parser ssh_mitm_version ->
     ns st !! d = ns s !! d /\ is_Some (ns s !! d)) ->
  find_action (arguments server) f = Some a ->
  option_strings a = [f] -> action a = Store TInt None -> dest a = d ->
  initial_namespace server !! d = Some (VInt z0) ->
  bool_decide (d ∈ dest <$> init_server_parser ssh_mitm_version) = true ->
  exists z, ns st !! d = Some (VInt z)
    /\ match supplied f (subcommand_arguments argv) None with
       | Some s => int_of_str s = Some z
       | None => z = z0
       end.
Proof.
  intros Hs Hattrs Hf Hopt Hact Hd Hinit Hin. apply bool_decide_eq_true in Hin.
  destruct (Hattrs d Hin) as [-> [v Hv]].
  unfold parse_known_args in Hs.
  assert (Htakes : takes_argument (action a) = true) by (by rewrite Hact).
  pose proof (parse_loop_last_value int_of_str load_module issubclass server f a _ _
                eq_refl Hf Htakes
                (only_writer (arguments server) a f
                   (server_dests_NoDup ssh_mitm_version)
                   (proj1 (find_action_Some _ _ _ Hf)) Hopt) s Hs) as Hlast.
  rewrite Hd, Hv, Hact in Hlast. rewrite ns_mk, Hinit in Hlast.
  destruct (supplied f (subcommand_arguments argv) None) as [str|].
  - unfold stored_value, get_value in Hlast.
    destruct (int_of_str str) as [z|]; [|discriminate].
    injection Hlast as ->. eauto.
  - injection Hlast as ->. eauto.
Qed.

(** X4. On a parsed [server] command line the listen port and the host
    key length are integers: what [int] makes of the argument of the
    last [--listen-port] and [--host-key-length], and 10022 and 2048
    when the option is not given. *)
Theorem server_integer_options (argv : list Arg) (st : PState) :
  parse_args int_of_str load_module issubclass top argv = Parsed st ->
  subcommand argv = Some "server" ->
  exists port len,
    ns st !! "listen_port" = Some (VInt port)
    /\ ns st !! "host_key_length" = Some (VInt len)
    /\ match supplied "--listen-port" (subcommand_arguments argv) None with
       | Some s => int_of_str s = Some port
       | None => port = 10022%Z
       end
    /\ match supplied "--host-key-length" (subcommand_arguments argv) None with
       | Some s => int_of_str s = Some len
       | None => len = 2048%Z
       end.
Proof.
  intros Hparse Hsub.
  destruct (main_parsed_server ssh_mitm_version int_of_str load_module issubclass audit_parser
              _ st Hparse Hsub) as (s & Hs & _ & _ & Hattrs & _).
  destruct (server_integer argv st s "--listen-port"
              {| option_strings := ["--listen-port"]; dest := "listen_port";
                 default := Some (VInt 10022); action := Store TInt None |}
              "listen_port" 10022%Z Hs Hattrs) as (port & Hport & Hp);
    [reflexivity | reflexivity | reflexivity | reflexivity
    | vm_compute; reflexivity | vm_compute; reflexivity |].
  destruct (server_integer argv st s "--host-key-length"
              {| option_strings := ["--host-key-length"]; dest := "host_key_length";
                 default := Some (VInt 2048); action := Store TInt None |}
              "host_key_length" 2048%Z Hs Hattrs) as (len & Hlen & Hl);
    [reflexivity | reflexivity | reflexivity | reflexivity
    | vm_compute; reflexivity | vm_compute; reflexivity |].
  exists port, len. done.
Qed.

(** X5. On a parsed [server] command line the [transparent] attribute
    is [True] exactly when [--transparent] is among the server's
    options, and so is the [transparent] argument of the server that
    [run_server] constructs. *)
Theorem transparent_flag (argv : list Arg) (st : PState) (p : Process) :
  parse_args int_of_str load_module issubclass top argv = Parsed st ->
  subcommand argv = Some "server" ->
  ns st !! "transparent"
    = Some (VBool (flag_given ["--transparent"] (subcommand_arguments argv)))
  /\ exists proxy,
       constructed (trace (snd (run_server ssh_mitm_version (ns st) p)))
         = constructed (trace p) ++ [proxy]
       /\ transparent proxy
          = VBool (flag_given ["--transparent"] (subcommand_arguments argv)).
Proof.
  intros Hparse Hsub.
  destruct (main_parsed_server ssh_mitm_version int_of_str load_module issubclass audit_parser
              _ st Hparse Hsub) as (s & Hs & _ & _ & Hattrs & _).
  assert (Hflag : ns st !! "transparent"
                  = Some (VBool (flag_given ["--transparent"] (subcommand_arguments argv)))).
  { destruct (Hattrs "transparent") as [-> _];
      [apply (bool_decide_eq_true_1 _); vm_compute; reflexivity|].
    unfold parse_known_args in Hs.
    pose proof (flag_lookup server
               {| option_strings := ["--transparent"]; dest := "transparent";
                  default := Some (VBool false); action := StoreTrue |}
               _ _ s eq_refl (server_dests_NoDup ssh_mitm_version) eq_refl
               ltac:(repeat constructor) ltac:(done) Hs) as Hfl.
    rewrite ns_mk in Hfl. cbn [dest option_strings] in Hfl. rewrite Hfl.
    assert (initial_namespace server !! "transparent" = Some (VBool false)) as ->
      by (vm_compute; reflexivity).
    by destruct (flag_given ["--transparent"] (subcommand_arguments argv)). }
  split; [done|].
  destruct (run_server_parsed ssh_mitm_version int_of_str load_module issubclass audit_parser
              argv st p Hparse Hsub) as (proxy & banner & c & Hproxy & _ & _ & ->).
  exists proxy. cbn [snd trace]. split.
  - unfold constructed. by rewrite omap_app.
  - rewrite Hproxy. cbn [transparent]. by apply attr_lookup.
Qed.

(** X6. On a parsed [server] command line, [--request-agent-breakin]
    marks the authenticator class that was selected: the class the
    loader returned for the argument of the last [--authenticator], and
    [AuthenticatorPassThrough] when that option is not given; without
    the flag no class is touched. *)
Theorem breakin_marks_selected_authenticator (argv : list Arg) (st : PState) (p : Process) :
  parse_args int_of_str load_module issubclass top argv = Parsed st ->
  subcommand argv = Some "server" ->
  exists c,
    match supplied "--authenticator" (subcommand_arguments argv) None with
    | Some name => load_module name = Some c /\ issubclass c "Authenticator" = true
    | None => c = "AuthenticatorPassThrough"
    end
    /\ REQUEST_AGENT_BREAKIN (snd (run_server ssh_mitm_version (ns st) p))
       = if flag_given ["--request-agent-breakin"] (subcommand_arguments argv)
         then <[c := VBool true]> (REQUEST_AGENT_BREAKIN p)
         else REQUEST_AGENT_BREAKIN p.
Proof.
  intros Hparse Hsub.
  destruct (run_server_parsed ssh_mitm_version int_of_str load_module issubclass audit_parser
              argv st p Hparse Hsub) as (proxy & banner & c & _ & _ & Hauth & ->).
  destruct (main_parsed_server ssh_mitm_version int_of_str load_module issubclass audit_parser
              _ st Hparse Hsub) as (s & Hs & _ & _ & Hattrs & _).
  pose proof Hs as Hloop. unfold parse_known_args in Hloop.
  assert (Hflag : attr (ns st) "request_agent_breakin"
                  = VBool (flag_given ["--request-agent-breakin"] (subcommand_arguments argv))).
  { apply attr_lookup.
    destruct (Hattrs "request_agent_breakin") as [-> _];
      [apply (bool_decide_eq_true_1 _); vm_compute; reflexivity|].
    pose proof (flag_lookup server
               {| option_strings := ["--request-agent-breakin"];
                  dest := "request_agent_breakin";
                  default := Some (VBool false); action := StoreTrue |}
               _ _ s eq_refl (server_dests_NoDup ssh_mitm_version) eq_refl
               ltac:(repeat constructor) ltac:(done) Hloop) as Hfl.
    rewrite ns_mk in Hfl. cbn [dest option_strings] in Hfl. rewrite Hfl.
    assert (initial_namespace server !! "request_agent_breakin" = Some (VBool false)) as ->
      by (vm_compute; reflexivity).
    by destruct (flag_given ["--request-agent-breakin"] (subcommand_arguments argv)). }
  assert (Hclass : ns s !! "authenticator" =
            match supplied "--authenticator" (subcommand_arguments argv) None with
            | Some name =>
                stored_value int_of_str load_module issubclass
                  (StoreModule "Authenticator") name
            | None => Some (VClass "AuthenticatorPassThrough")
            end).
  { set (a := {| option_strings := ["--authenticator"]; dest := "authenticator";
                  default := Some (VClass "AuthenticatorPassThrough");
                  action := StoreModule "Authenticator" |}).
    assert (Hf : find_action (arguments server) "--authenticator" = Some a)
      by (vm_compute; reflexivity).
    pose proof (parse_loop_last_value int_of_str load_module issubclass server
                  "--authenticator" a _ _ eq_refl Hf eq_refl
                  (only_writer (arguments server) a "--authenticator"
                     (server_dests_NoDup ssh_mitm_version)
                     (proj1 (find_action_Some _ _ _ Hf)) eq_refl) s Hloop) as Hlast.
    subst a.
    rewrite ns_mk in Hlast. cbn [dest action] in Hlast. rewrite Hlast.
    destruct (supplied "--authenticator" (subcommand_arguments argv) None); [done|].
    vm_compute. reflexivity. }
  assert (Hc : ns s !! "authenticator" = Some (VClass c)).
  { destruct (Hattrs "authenticator") as [Heq [v Hv]];
      [apply (bool_decide_eq_true_1 _); vm_compute; reflexivity|].
    rewrite <- Heq in Hv. rewrite <- Heq. by rewrite (attr_lookup _ _ _ Hv) in Hauth; subst. }
  exists c. cbn [snd REQUEST_AGENT_BREAKIN]. rewrite Hflag. cbn [truthy]. split; [|done].
  rewrite Hc in Hclass.
  destruct (supplied "--authenticator" (subcommand_arguments argv) None) as [name|].
  - cbn [stored_value] in Hclass.
    destruct (load_module name) as [c'|]; [|discriminate].
    destruct (issubclass c' "Authenticator") eqn:Hsubc; [|discriminate].
    by injection Hclass as ->.
  - by injection Hclass as ->.
Qed.

Lemma top_flag argv st a :
  parse_args int_of_str load_module issubclass top argv = Parsed st ->
  subcommand argv = Some "server" ->
  action a = StoreTrue ->
  Forall (fun g => find_action (arguments top_options) g = Some a) (option_strings a) ->
  option_strings a <> [] ->
  initial_namespace top !! dest a = Some (VBool false) ->
  bool_decide (dest a ∈ dest <$> init_server_parser ssh_mitm_version) = false ->
  dest a <> "subparser_name" ->
  attr (ns st) (dest a) = VBool (flag_given (option_strings a) (global_arguments argv)).
Proof.
  intros Hparse Hsub Hact Hmine Hne Hinit Hd Hsp.
  destruct (main_parsed_global argv st Hparse Hsub) as (s & stm & _ & Hs & _ & Hg & _ & Hns).
  apply attr_lookup. rewrite (top_attribute argv st s stm (dest a) Hs Hns Hd Hsp).
  rewrite (flag_lookup top_options a _ _ stm eq_refl top_dests_NoDup Hact Hmine Hne Hg).
  rewrite ns_mk, Hinit. by destruct (flag_given (option_strings a) (global_arguments argv)).
Qed.

(** X7. On a [server] command line, [-d] or [--debug] before the
    subcommand puts the root logger at DEBUG, and without it the root
    logger is at INFO; either way [main] leaves the root logger with
    exactly one handler, whose two path switches follow the flag. *)
Theorem debug_flag_sets_root_logger
    (APPIMAGE : option string) (argv : list Arg) (st : PState) (p : Process) :
  parse_args int_of_str load_module issubclass top (appimage_argv APPIMAGE argv) = Parsed st ->
  subcommand (appimage_argv APPIMAGE argv) = Some "server" ->
  root_level (snd (main APPIMAGE argv p))
    = (if flag_given ["-d"; "--debug"] (global_arguments (appimage_argv APPIMAGE argv))
       then DEBUG else INFO)
  /\ root_handlers (snd (main APPIMAGE argv p))
     = [ {| enable_link_path :=
              VBool (flag_given ["-d"; "--debug"]
                       (global_arguments (appimage_argv APPIMAGE argv)));
            show_path :=
              VBool (flag_given ["-d"; "--debug"]
                       (global_arguments (appimage_argv APPIMAGE argv))) |} ].
Proof.
  intros Hparse Hsub.
  destruct (main_server ssh_mitm_version int_of_str load_module issubclass audit_parser
              APPIMAGE argv p st Hparse Hsub) as (proxy & banner & _ & _ & ->).
  cbn [snd root_level root_handlers].
  pose proof (top_flag _ st
             {| option_strings := ["-d"; "--debug"]; dest := "debug";
                default := Some (VBool false); action := StoreTrue |}
             Hparse Hsub eq_refl ltac:(repeat constructor) ltac:(done)
             ltac:(vm_compute; reflexivity) ltac:(vm_compute; reflexivity) ltac:(done)) as Hflag.
  cbn [dest option_strings] in Hflag. rewrite Hflag. cbn [truthy]. done.
Qed.

(** X8. On a [server] command line, [--disable-workarounds] before the
    subcommand is what keeps [Transport.run]: with the flag [main]
    leaves it as it was, without it [main] rebinds it to
    [dropbear.transport_run]. *)
Theorem disable_workarounds_flag
    (APPIMAGE : option string) (argv : list Arg) (st : PState) (p : Process) :
  parse_args int_of_str load_module issubclass top (appimage_argv APPIMAGE argv) = Parsed st ->
  subcommand (appimage_argv APPIMAGE argv) = Some "server" ->
  Transport_run (snd (main APPIMAGE argv p))
    = if flag_given ["--disable-workarounds"]
           (global_arguments (appimage_argv APPIMAGE argv))
      then Transport_run p else dropbear_transport_run.
Proof.
  intros Hparse Hsub.
  destruct (main_server ssh_mitm_version int_of_str load_module issubclass audit_parser
              APPIMAGE argv p st Hparse Hsub) as (proxy & banner & _ & _ & ->).
  cbn [snd Transport_run].
  pose proof (top_flag _ st
             {| option_strings := ["--disable-workarounds"]; dest := "disable_workarounds";
                default := Some (VBool false); action := StoreTrue |}
             Hparse Hsub eq_refl ltac:(repeat constructor) ltac:(done)
             ltac:(vm_compute; reflexivity) ltac:(vm_compute; reflexivity) ltac:(done)) as Hflag.
  cbn [dest option_strings] in Hflag. rewrite Hflag. cbn [truthy]. done.
Qed.

(** X9. On a [server] command line the paramiko logger follows
    [--paramiko-log-level]: the argument of its last occurrence before
    the subcommand is one of [warning], [info] and [debug] and sets the
    level of that name; without the option the level is WARNING. *)
Theorem paramiko_log_level_option
    (APPIMAGE : option string) (argv : list Arg) (st : PState) (p : Process) :
  parse_args int_of_str load_module issubclass top (appimage_argv APPIMAGE argv) = Parsed st ->
  subcommand (appimage_argv APPIMAGE argv) = Some "server" ->
  exists level,
    level ∈ ["warning"; "info"; "debug"]
    /\ level = match supplied "--paramiko-log-level"
                       (global_arguments (appimage_argv APPIMAGE argv)) None with
               | Some s => s
               | None => "warning"
               end
    /\ paramiko_level (snd (main APPIMAGE argv p))
       = if String.eqb level "debug" then DEBUG
         else if String.eqb level "info" then INFO else WARNING.
Proof.
  intros Hparse Hsub.
  destruct (main_server ssh_mitm_version int_of_str load_module issubclass audit_parser
              APPIMAGE argv p st Hparse Hsub) as (proxy & banner & _ & _ & ->).
  cbn [snd paramiko_level].
  destruct (main_parsed_global _ st Hparse Hsub) as (s & stm & _ & Hs & _ & Hg & _ & Hns).
  destruct (main_parsed_server ssh_mitm_version int_of_str load_module issubclass audit_parser
              _ st Hparse Hsub) as (_ & _ & _ & _ & _ & _ & _ & [v Hv] & _).
  set (a := {| option_strings := ["--paramiko-log-level"]; dest := "paramiko_log_level";
                default := Some (VStr "warning");
                action := Store TStr (Some ["warning"; "info"; "debug"]) |}).
  assert (Hf : find_action (arguments top_options) "--paramiko-log-level" = Some a)
    by (vm_compute; reflexivity).
  pose proof (parse_loop_last_value int_of_str load_module issubclass top_options
                "--paramiko-log-level" a _ _ eq_refl Hf eq_refl
                (only_writer (arguments top_options) a "--paramiko-log-level"
                   top_dests_NoDup (proj1 (find_action_Some _ _ _ Hf)) eq_refl)
                stm Hg) as Hlast.
  subst a.
  rewrite ns_mk in Hlast. cbn [dest action stored_value] in Hlast.
  rewrite <- (top_attribute _ st s stm "paramiko_log_level" Hs Hns
                ltac:(vm_compute; reflexivity) ltac:(done)) in Hlast.
  rewrite Hv in Hlast. rewrite (attr_lookup _ _ _ Hv).
  assert (initial_namespace top !! "paramiko_log_level" = Some (VStr "warning")) as Hinit
    by (vm_compute; reflexivity).
  rewrite Hinit in Hlast.
  destruct (supplied "--paramiko-log-level"
              (global_arguments (appimage_argv APPIMAGE argv)) None) as [l|].
  - symmetry in Hlast. apply get_value_TStr in Hlast as [-> Hl]. exists l. done.
  - injection Hlast as ->. exists "warning". split; [set_solver|]. done.
Qed.

(** X11. The [APPIMAGE] block of [main] does not change what [main]
    does: with the variable set, unset or empty, [main] ends the same
    way in the same state on every command line.  The one command line
    the block rewrites, a lone empty argument, is refused with or
    without it (only the wording of the usage error, which is not
    modelled, differs). *)
Theorem appimage_does_not_change_outcome
    (APPIMAGE : option string) (argv : list Arg) (p : Process) :
  main APPIMAGE argv p = main None argv p.
Proof.
  destruct (appimage_argv_cases APPIMAGE argv) as [Heq | [-> Heq]].
  - unfold main. cbv zeta. rewrite Heq. reflexivity.
  - rewrite (main_exit ssh_mitm_version int_of_str load_module issubclass audit_parser
               APPIMAGE [Word ""] p usage_error)
      by (rewrite Heq; vm_compute; reflexivity).
    rewrite (main_exit ssh_mitm_version int_of_str load_module issubclass audit_parser
               None [Word ""] p usage_error)
      by (vm_compute; reflexivity).
    reflexivity.
Qed.

End MainMore.

(** ** The agent break-in setting *)

Section AgentBreakin.

Variable ssh_mitm_version : string.
Variable int_of_str : string -> option Z.
Variable load_module : string -> option PyClass.
Variable issubclass : PyClass -> PyClass -> bool.
Variable audit_parser : list Arg -> Outcome PState.

Local Abbreviation top :=
  (main_parser ssh_mitm_version int_of_str load_module issubclass audit_parser).
Local Abbreviation server := (parser_mitm_server ssh_mitm_version).

Lemma flag_given_omitted f argv : omitted f argv -> flag_given [f] argv = false.
Proof.
  unfold flag_given. induction argv as [|x rest IH]; intros Hom; [done|].
  assert (Hrest : omitted f rest) by (intros e He; apply (Hom e); by right).
  cbn [existsb]. rewrite (IH Hrest), orb_false_r.
  destruct x as [g [e|]|w]; [done| |done].
  apply bool_decide_eq_false. intros Hg. apply list_elem_of_singleton in Hg as ->.
  apply (Hom None). by left.
Qed.

Lemma request_agent_breakin_parsed argv st :
  parse_args int_of_str load_module issubclass top argv = Parsed st ->
  subcommand argv = Some "server" ->
  ns st !! "request_agent_breakin"
    = Some (VBool (flag_given ["--request-agent-breakin"] (subcommand_arguments argv))).
Proof.
  intros Hparse Hsub.
  destruct (main_parsed_server ssh_mitm_version int_of_str load_module issubclass audit_parser
              _ st Hparse Hsub) as (s & Hs & _ & _ & Hattrs & _).
  destruct (Hattrs "request_agent_breakin") as [-> _];
    [apply (bool_decide_eq_true_1 _); vm_compute; reflexivity|].
  unfold parse_known_args in Hs.
  pose proof (flag_lookup int_of_str load_module issubclass server
             {| option_strings := ["--request-agent-breakin"];
                dest := "request_agent_breakin";
                default := Some (VBool false); action := StoreTrue |}
             _ _ s eq_refl (server_dests_NoDup ssh_mitm_version) eq_refl
             ltac:(repeat constructor) ltac:(done) Hs) as Hfl.
  rewrite ns_mk in Hfl. cbn [dest option_strings] in Hfl. rewrite Hfl.
  assert (initial_namespace server !! "request_agent_breakin" = Some (VBool false)) as ->
    by (vm_compute; reflexivity).
  by destruct (flag_given ["--request-agent-breakin"] (subcommand_arguments argv)).
Qed.

(** C2, as the code has it.  The agent break-in setting is the
    attribute [REQUEST_AGENT_BREAKIN] of the selected authenticator
    class.  On a parsed [server] command line [run_server] sets it to
    [True] on that class exactly when [--request-agent-breakin] was
    given, and leaves every class as it was otherwise.  The assignment
    comes before the server is started: the class attributes under
    which [proxy.start()] is called already have it, and [run_server]
    does not change them afterwards.  Once set, every instance that
    finds the attribute on that class reads [True]. *)
Theorem agent_breakin_is_class_attribute (argv : list Arg) (st : PState) (p : Process) :
  parse_args int_of_str load_module issubclass top argv = Parsed st ->
  subcommand argv = Some "server" ->
  exists c b proxy classes,
    ns st !! "authenticator" = Some (VClass c)
    /\ ns st !! "request_agent_breakin" = Some (VBool b)
    /\ b = flag_given ["--request-agent-breakin"] (subcommand_arguments argv)
    /\ (omitted "--request-agent-breakin" (subcommand_arguments argv) -> b = false)
    /\ starts (trace (snd (run_server ssh_mitm_version (ns st) p)))
       = starts (trace p) ++ [(proxy, classes)]
    /\ at_REQUEST_AGENT_BREAKIN classes
       = (if b then <[c := VBool true]> (REQUEST_AGENT_BREAKIN p)
          else REQUEST_AGENT_BREAKIN p)
    /\ REQUEST_AGENT_BREAKIN (snd (run_server ssh_mitm_version (ns st) p))
       = (if b then <[c := VBool true]> (REQUEST_AGENT_BREAKIN p)
          else REQUEST_AGENT_BREAKIN p)
    /\ (b = true ->
        forall (mro : PyClass -> list PyClass) (i : Instance) pre post,
          inst_dict i = None ->
          mro (inst_class i) = pre ++ c :: post ->
          (forall c', c' ∈ pre -> c' <> c /\ REQUEST_AGENT_BREAKIN p !! c' = None) ->
          instance_getattr mro (snd (run_server ssh_mitm_version (ns st) p)) i
            = Some (VBool true)).
Proof.
  intros Hparse Hsub.
  destruct (run_server_parsed ssh_mitm_version int_of_str load_module issubclass audit_parser
              argv st p Hparse Hsub) as (proxy & banner & c & _ & _ & Hauth & ->).
  destruct (main_parsed_server ssh_mitm_version int_of_str load_module issubclass audit_parser
              _ st Hparse Hsub) as (s & Hs & _ & _ & Hattrs & _).
  pose proof (request_agent_breakin_parsed argv st Hparse Hsub) as Hflag.
  rewrite (attr_lookup _ _ _ Hflag). cbn [truthy snd trace REQUEST_AGENT_BREAKIN].
  set (b := flag_given ["--request-agent-breakin"] (subcommand_arguments argv)) in *.
  exists c, b, proxy,
    {| at_Transport_run := Transport_run p;
       at_Transport_CLIENT_ID := VStr banner;
       at_REQUEST_AGENT_BREAKIN :=
         if b then <[c := VBool true]> (REQUEST_AGENT_BREAKIN p)
         else REQUEST_AGENT_BREAKIN p |}.
  split_and!.
  - rewrite <- Hauth. apply getattr_attr.
    destruct (Hattrs "authenticator") as [-> H];
      [apply (bool_decide_eq_true_1 _); vm_compute; reflexivity | exact H].
  - exact Hflag.
  - reflexivity.
  - intros Hom. by apply flag_given_omitted.
  - unfold starts. rewrite omap_app. reflexivity.
  - reflexivity.
  - reflexivity.
  - intros Hb mro i pre post Hdict Hmro Hpre.
    unfold instance_getattr. rewrite Hdict, Hmro. cbn [REQUEST_AGENT_BREAKIN].
    rewrite Hb. by apply lookup_mro_insert.
Qed.

End AgentBreakin.

(** C2 as claimed fails: with [--request-agent-breakin], an
    authenticator instance of another session reads a different
    setting after [main] than before. *)
Lemma agent_breakin_counterexample :
  instance_getattr Sample.mro
      (snd (Sample.main None [Word "server"; Opt "--request-agent-breakin" None] Sample.fresh))
      Sample.other_authenticator
    <> instance_getattr Sample.mro Sample.fresh Sample.other_authenticator.
Proof. vm_compute. discriminate. Qed.

(** C2 as the code has it, on [Sample.audit_run]: the class is marked
    when the server is started. *)
Lemma agent_breakin_is_class_attribute_witness :
  exists proxy classes,
    starts (trace (snd (Sample.run_server (ns (Sample.parsed Sample.audit_run)) Sample.fresh)))
      = [(proxy, classes)]
    /\ at_REQUEST_AGENT_BREAKIN classes
       = <["AuthenticatorPassword" := VBool true]> (REQUEST_AGENT_BREAKIN Sample.fresh)
    /\ REQUEST_AGENT_BREAKIN
         (snd (Sample.run_server (ns (Sample.parsed Sample.audit_run)) Sample.fresh))
       = <["AuthenticatorPassword" := VBool true]> (REQUEST_AGENT_BREAKIN Sample.fresh).
Proof.
  destruct (agent_breakin_is_class_attribute
              Sample.version Sample.int_of_str Sample.load_module Sample.issubclass
              Sample.audit_parser Sample.audit_run (Sample.parsed Sample.audit_run)
              Sample.fresh)
    as (c & b & proxy & classes & Hc & _ & Hb & _ & Hstarts & Hat & Hset & _).
  - vm_compute. reflexivity.
  - reflexivity.
  - assert (c = "AuthenticatorPassword") as ->.
    { vm_compute in Hc. congruence. }
    assert (b = true) as -> by (rewrite Hb; reflexivity).
    exists proxy, classes. split; [exact Hstarts|]. split; [exact Hat | exact Hset].
Defined.


(** ** The further properties on concrete command lines *)

(** X1, on an empty namespace: nothing is started. *)
Lemma run_server_needs_its_attributes_witness :
  started (trace (snd (Sample.run_server ∅ Sample.fresh))) = [].
Proof.
  destruct (run_server_needs_its_attributes Sample.version ∅ Sample.fresh) as [_ Hfail].
  destruct (Hfail (AttributeError "request_agent_breakin")) as [Hs _].
  - vm_compute. reflexivity.
  - exact Hs.
Defined.

(** X4, on [Sample.audit_run]: the port given, the default key
    length. *)
Lemma server_integer_options_witness :
  ns (Sample.parsed Sample.audit_run) !! "listen_port" = Some (VInt 2222)
  /\ ns (Sample.parsed Sample.audit_run) !! "host_key_length" = Some (VInt 2048).
Proof.
  destruct (server_integer_options
              Sample.version Sample.int_of_str Sample.load_module Sample.issubclass
              Sample.audit_parser Sample.audit_run (Sample.parsed Sample.audit_run))
    as (port & len & Hp & Hl & Hps & Hls).
  - vm_compute. reflexivity.
  - reflexivity.
  - vm_compute in Hps. vm_compute in Hls. split; congruence.
Defined.

(** X5, on [ssh-mitm server --transparent]. *)
Lemma transparent_flag_witness :
  exists proxy,
    constructed (trace (snd (Sample.run_server
                               (ns (Sample.parsed [Word "server"; Opt "--transparent" None]))
                               Sample.fresh))) = [proxy]
    /\ transparent proxy = VBool true.
Proof.
  destruct (transparent_flag
              Sample.version Sample.int_of_str Sample.load_module Sample.issubclass
              Sample.audit_parser [Word "server"; Opt "--transparent" None]
              (Sample.parsed [Word "server"; Opt "--transparent" None]) Sample.fresh)
    as (_ & proxy & Hc & Ht).
  - vm_compute. reflexivity.
  - reflexivity.
  - exists proxy. split; [exact Hc | exact Ht].
Defined.

(** X6, with two [--authenticator] options: the last one names the
    class that is marked. *)
Lemma breakin_marks_selected_authenticator_witness :
  REQUEST_AGENT_BREAKIN
      (snd (Sample.run_server
              (ns (Sample.parsed [Word "server";
                                  Opt "--authenticator" None; Word "AuthenticatorPassThrough";
                                  Opt "--request-agent-breakin" None;
                                  Opt "--authenticator" (Some "AuthenticatorPassword")]))
              Sample.fresh))
    = <["AuthenticatorPassword" := VBool true]> (REQUEST_AGENT_BREAKIN Sample.fresh).
Proof.
  destruct (breakin_marks_selected_authenticator
              Sample.version Sample.int_of_str Sample.load_module Sample.issubclass
              Sample.audit_parser
              [Word "server";
               Opt "--authenticator" None; Word "AuthenticatorPassThrough";
               Opt "--request-agent-breakin" None;
               Opt "--authenticator" (Some "AuthenticatorPassword")]
              (Sample.parsed [Word "server";
                              Opt "--authenticator" None; Word "AuthenticatorPassThrough";
                              Opt "--request-agent-breakin" None;
                              Opt "--authenticator" (Some "AuthenticatorPassword")])
              Sample.fresh)
    as (c & Hc & Hset).
  - vm_compute. reflexivity.
  - reflexivity.
  - assert (c = "AuthenticatorPassword") as ->.
    { vm_compute in Hc. destruct Hc as [Hc _]. congruence. }
    exact Hset.
Defined.

(** X7, on [Sample.audit_run], which has [-d]. *)
Lemma debug_flag_sets_root_logger_witness :
  root_level (snd (Sample.main None Sample.audit_run Sample.fresh)) = DEBUG.
Proof.
  destruct (debug_flag_sets_root_logger
              Sample.version Sample.int_of_str Sample.load_module Sample.issubclass
              Sample.audit_parser None Sample.audit_run (Sample.parsed Sample.audit_run) Sample.fresh)
    as [H _].
  - vm_compute. reflexivity.
  - reflexivity.
  - exact H.
Defined.

(** X8, on [ssh-mitm --disable-workarounds server]. *)
Lemma disable_workarounds_flag_witness :
  Transport_run (snd (Sample.main None [Opt "--disable-workarounds" None; Word "server"]
                        Sample.fresh))
    = paramiko_Transport_run.
Proof.
  pose proof (disable_workarounds_flag
                Sample.version Sample.int_of_str Sample.load_module Sample.issubclass
                Sample.audit_parser None [Opt "--disable-workarounds" None; Word "server"]
                (Sample.parsed [Opt "--disable-workarounds" None; Word "server"])
                Sample.fresh) as H.
  apply H.
  - vm_compute. reflexivity.
  - reflexivity.
Defined.

(** X9, with the option given twice. *)
Lemma paramiko_log_level_option_witness :
  paramiko_level
    (snd (Sample.main None
            [Opt "--paramiko-log-level" None; Word "warning";
             Opt "--paramiko-log-level" (Some "debug"); Word "server"]
            Sample.fresh))
    = DEBUG.
Proof.
  destruct (paramiko_log_level_option
              Sample.version Sample.int_of_str Sample.load_module Sample.issubclass
              Sample.audit_parser None
              [Opt "--paramiko-log-level" None; Word "warning";
               Opt "--paramiko-log-level" (Some "debug"); Word "server"]
              (Sample.parsed [Opt "--paramiko-log-level" None; Word "warning";
                              Opt "--paramiko-log-level" (Some "debug"); Word "server"])
              Sample.fresh)
    as (level & _ & Hl & Hp).
  - vm_compute. reflexivity.
  - reflexivity.
  - assert (level = "debug") as -> by (vm_compute in Hl; congruence).
    exact Hp.
Defined.
